(** * Scheduler AI service: provider router and parse-job lifecycle

    A shallow embedding of [ai-service/app/models.py], [store.py],
    [service.py] and [providers.py], and the properties of the job
    lifecycle and of the provider router's admission gates.

    Conventions of the embedding.
    - Python [int] is [Z]. A clock reading of [time.monotonic()] is a
      binary64 float, with the rounding of [+] and [-] and the comparisons
      of IEEE 754 (Rocq's primitive [float]); [cooldown_seconds], an [int]
      or a [float], is the float it is added to the clock as. A
      [confidence] is only compared with constants and is the exact
      rational its double stands for.
    - A [dict] whose iteration order is never observed is a [gmap]; a [set]
      is a [gset]; the job table [_jobs], whose values are iterated, is an
      insertion-ordered association list.
    - [ParseJob] instances are mutable objects that several holders share:
      they live in an object heap and the program passes references.
    - A coroutine suspended on [await client.parse_timetable(...)] is an
      entry of the list of pending calls; the scheduler's choices are the
      events of a trace. *)

From Stdlib Require Import QArith Lqa ZArith Lia Floats.
From stdpp Require Import gmap strings list fin_maps.

Local Open Scope Z_scope.

Set Warnings "-inexact-float".

(** ** Numbers *)

(** [x < y] on confidences, as a boolean. *)
Definition Qlt_bool (x y : Q) : bool := negb (Qle_bool y x).

(** [f >= n] for a float and an [int]: Python compares the two exactly,
    without rounding the [int]; a NaN compares false. *)
Definition float_ge_int (f : float) (n : Z) : bool :=
  match Prim2SF f with
  | S754_nan => false
  | S754_infinity negative => negb negative
  | S754_zero _ => 0 >=? n
  | S754_finite negative m e =>
      let mantissa := if negative then Z.neg m else Z.pos m in
      if 0 <=? e then mantissa * 2 ^ e >=? n
      else mantissa >=? n * 2 ^ (- e)
  end.

(** The truth value of a float: false on [0.0] and [-0.0] only. *)
Definition truthy (f : float) : bool := negb (f =? 0)%float.

(** ** models.py *)

Inductive Provider := OPENAI | OPENROUTER | QWEN_LOCAL.

Inductive JobStatus := PENDING | RUNNING | SUCCEEDED | FAILED | NEEDS_REVIEW.

Inductive ReviewDecision := APPROVED | REJECTED.

#[global] Instance Provider_eq_dec : EqDecision Provider.
Proof. solve_decision. Defined.

#[global] Instance JobStatus_eq_dec : EqDecision JobStatus.
Proof. solve_decision. Defined.

#[global] Instance ReviewDecision_eq_dec : EqDecision ReviewDecision.
Proof. solve_decision. Defined.

Definition Provider_to_nat (p : Provider) : nat :=
  match p with OPENAI => 0%nat | OPENROUTER => 1%nat | QWEN_LOCAL => 2%nat end.

Definition Provider_of_nat (n : nat) : option Provider :=
  match n with
  | 0%nat => Some OPENAI
  | 1%nat => Some OPENROUTER
  | 2%nat => Some QWEN_LOCAL
  | _ => None
  end.

#[global] Instance Provider_countable : Countable Provider.
Proof.
  apply (inj_countable Provider_to_nat Provider_of_nat).
  intros []; reflexivity.
Defined.

(** The values of the open-schema dictionaries ([Dict[str, Any]]). *)
Inductive Any :=
| AStr (s : string)
| AInt (n : Z)
| ABool (b : bool)
| ANone.

Record ToolCall := mkToolCall {
  type_ : string;
  payload : gmap string Any;
  needs_approval : bool
}.

Record ParsedEvent := mkParsedEvent {
  title : string;
  weekday : Z;
  start : string;
  end_ : string;
  location : option string;
  assignees : list string;
  confidence : Q;
  tool_calls : list ToolCall
}.

Record ParseJob := mkParseJob {
  job_id : string;                 (* [id] *)
  org_id : string;
  creator_id : string;
  provider : Provider;
  source_url : string;
  created_at : Z;                  (* the UTC instant, as a timestamp *)
  status : JobStatus;
  events : list ParsedEvent;
  error : option string;
  metadata : gmap string Any
}.

Definition set_status (s : JobStatus) (self : ParseJob) : ParseJob :=
  mkParseJob (job_id self) (org_id self) (creator_id self) (provider self)
    (source_url self) (created_at self) s (events self) (error self)
    (metadata self).

Definition set_events (evs : list ParsedEvent) (self : ParseJob) : ParseJob :=
  mkParseJob (job_id self) (org_id self) (creator_id self) (provider self)
    (source_url self) (created_at self) (status self) evs (error self)
    (metadata self).

Definition set_error (e : option string) (self : ParseJob) : ParseJob :=
  mkParseJob (job_id self) (org_id self) (creator_id self) (provider self)
    (source_url self) (created_at self) (status self) (events self) e
    (metadata self).

Definition set_metadata (m : gmap string Any) (self : ParseJob) : ParseJob :=
  mkParseJob (job_id self) (org_id self) (creator_id self) (provider self)
    (source_url self) (created_at self) (status self) (events self)
    (error self) m.

(** [ParseJob.mark_running] *)
Definition mark_running (self : ParseJob) : ParseJob :=
  set_status RUNNING self.

(** [ParseJob.mark_failed] *)
Definition mark_failed (message : string) (self : ParseJob) : ParseJob :=
  set_error (Some message) (set_status FAILED self).

(** [event.confidence < 0.6] *)
Definition low_confidence (event : ParsedEvent) : bool :=
  Qlt_bool (confidence event) (6 # 10).

(** [ParseJob.mark_succeeded] *)
Definition mark_succeeded (evs : list ParsedEvent) (self : ParseJob) : ParseJob :=
  let self := set_events evs self in
  let needs_review := existsb low_confidence evs in
  set_status (if needs_review then NEEDS_REVIEW else SUCCEEDED) self.

(** ** store.py *)

(** A reference to a [ParseJob] object. *)
Abbreviation ref := nat (only parsing).

(** An insertion-ordered dictionary from job identifiers to job objects. *)
Definition jobdict := list (string * ref).

(** [d.get(k)] *)
Fixpoint dict_get (k : string) (d : jobdict) : option ref :=
  match d with
  | [] => None
  | (k', v) :: d' => if decide (k = k') then Some v else dict_get k d'
  end.

(** [d[k] = v]: an existing key keeps its position, a new key goes last. *)
Fixpoint dict_set (k : string) (v : ref) (d : jobdict) : jobdict :=
  match d with
  | [] => [(k, v)]
  | (k', v') :: d' =>
      if decide (k = k') then (k, v) :: d' else (k', v') :: dict_set k v d'
  end.

(** [d.values()] *)
Definition dict_values (d : jobdict) : list ref := map snd d.

(** The process memory the store works on: the job objects and the
    [_jobs] table of the one [ParseJobStore]. A reference the program holds
    always points at an allocated object; the functions below leave the
    memory alone on a reference outside the heap, a case no operation
    produces. *)
Record Memory := mkMemory {
  heap : list ParseJob;
  _jobs : jobdict
}.

(** Reading an object through a reference. *)
Definition deref (w : Memory) (job : ref) : option ParseJob := heap w !! job.

(** Mutating an object in place through a reference. *)
Definition mutate (f : ParseJob -> ParseJob) (job : ref) (w : Memory) : Memory :=
  mkMemory (alter f job (heap w)) (_jobs w).

(** [ParseJobStore.create_job]; [new_id] is the [uuid4] drawn and [now] the
    clock reading. *)
Definition create_job (new_id : string) (now : Z)
    (org creator : string) (p : Provider) (url : string)
    (w : Memory) : Memory * ref :=
  let job := length (heap w) in
  let obj := mkParseJob new_id org creator p url now PENDING [] None ∅ in
  (mkMemory (heap w ++ [obj]) (dict_set new_id job (_jobs w)), job).

(** [ParseJobStore.get] *)
Definition get (jid : string) (w : Memory) : option ref :=
  dict_get jid (_jobs w).

(** [job.org_id == org_id] on a reference *)
Definition has_org (w : Memory) (org : string) (job : ref) : bool :=
  match deref w job with
  | Some j => bool_decide (org_id j = org)
  | None => false
  end.

(** [ParseJobStore.list_for_org] *)
Definition list_for_org (org : string) (w : Memory) : list ref :=
  List.filter (has_org w org) (dict_values (_jobs w)).

(** [ParseJobStore.update] *)
Definition update (job : ref) (w : Memory) : Memory :=
  match deref w job with
  | Some j => mkMemory (heap w) (dict_set (job_id j) job (_jobs w))
  | None => w
  end.

(** [ParseJobStore.mark_success] *)
Definition mark_success (job : ref) (evs : list ParsedEvent)
    (w : Memory) : Memory * ref :=
  let w := mutate (mark_succeeded evs) job w in
  let w := update job w in
  (w, job).

(** [ParseJobStore.mark_failure] *)
Definition mark_failure (job : ref) (err : string)
    (w : Memory) : Memory * ref :=
  let w := mutate (mark_failed err) job w in
  let w := update job w in
  (w, job).

(** ** service.py *)

(** [job.status not in {JobStatus.SUCCEEDED, JobStatus.NEEDS_REVIEW}] *)
Definition reviewable (s : JobStatus) : bool :=
  match s with
  | SUCCEEDED | NEEDS_REVIEW => true
  | _ => false
  end.

(** The two branches of [review_job] on the job object. *)
Definition apply_review (decision : ReviewDecision) (self : ParseJob) : ParseJob :=
  match decision with
  | APPROVED =>
      set_status SUCCEEDED
        (set_metadata (<["review" := AStr "approved"]> (metadata self)) self)
  | REJECTED =>
      set_status FAILED
        (set_metadata (<["review" := AStr "rejected"]> (metadata self)) self)
  end.

(** [ParseService.review_job] *)
Definition review_job (jid : string) (decision : ReviewDecision)
    (w : Memory) : Memory * option ref :=
  match get jid w with
  | None => (w, None)
  | Some job =>
      match deref w job with
      | None => (w, Some job)
      | Some j =>
          if negb (reviewable (status j)) then (w, Some job)
          else
            let w := mutate (apply_review decision) job w in
            let w := update job w in
            (w, Some job)
      end
  end.

(** ** providers.py *)

(** A provider client is an opaque handle; what a call to it produces is
    an input of the model (the events [ClientReturns], [ClientRaises] and
    [ClientAborts] below). *)
Definition ProviderClient := nat.

(** The exceptions [parse_with] raises from its admission block, with the
    content of their messages. *)
Inductive Unavailable :=
| Disabled (p : Provider)
| NotEnabledFor (p : Provider) (org : string).

Inductive QuotaScope :=
| GlobalQuota (p : Provider)
| OrgQuota (p : Provider) (org : string).

Inductive RouterError :=
| ValueError (p : Provider)
| KeyError (p : Provider)
| ProviderUnavailableError (why : Unavailable)
| ProviderQuotaExceededError (scope : QuotaScope)
| ProviderConcurrencyLimitError (p : Provider)
| ProviderCircuitOpenError (p : Provider).

Record ProviderRollout := mkProviderRollout {
  allow_by_default : bool;
  allowlist : gset string;
  blocklist : gset string
}.

(** [ProviderRollout.is_allowed] *)
Definition is_allowed (self : ProviderRollout) (org : string) : bool :=
  if allow_by_default self then bool_decide (org ∉ blocklist self)
  else bool_decide (org ∈ allowlist self).

Record ProviderConfig := mkProviderConfig {
  client : ProviderClient;
  enabled : bool;
  quota_per_window : option Z;
  window_seconds : Z;
  org_quotas : option (gmap string Z);
  concurrency_limit : option Z;
  failure_threshold : Z;
  cooldown_seconds : float;
  rollout : option ProviderRollout
}.

Record ProviderState := mkProviderState {
  window_started_at : float;
  window_count : Z;
  org_counts : gmap string Z;
  inflight : Z;
  failure_count : Z;
  circuit_open_until : option float
}.

Record ProviderRouter := mkProviderRouter {
  _configs : gmap Provider ProviderConfig;
  _state : gmap Provider ProviderState
}.

(** [ProviderRouter.__init__] *)
Definition new_router : ProviderRouter := mkProviderRouter ∅ ∅.

(** [ProviderState(window_started_at=now)] *)
Definition new_state (now : float) : ProviderState :=
  mkProviderState now 0 ∅ 0 0 None.

(** [ProviderRouter.register]; [config] is [ProviderConfig(client=client,
    **config_kwargs)] and [now] the reading of [time.monotonic()]. *)
Definition register (p : Provider) (config : ProviderConfig) (now : float)
    (r : ProviderRouter) : ProviderRouter :=
  mkProviderRouter (<[p := config]> (_configs r))
                   (<[p := new_state now]> (_state r)).

(** [state.circuit_open_until and now < state.circuit_open_until]: a float
    is falsy when it is zero. *)
Definition circuit_open (state : ProviderState) (now : float) : bool :=
  match circuit_open_until state with
  | Some t => truthy t && (now <? t)%float
  | None => false
  end.

(** [config.rollout and not config.rollout.is_allowed(org_id)]: a dataclass
    instance is always truthy. *)
Definition rollout_denied (config : ProviderConfig) (org : string) : bool :=
  match rollout config with
  | Some r => negb (is_allowed r org)
  | None => false
  end.

(** [now - state.window_started_at >= config.window_seconds] *)
Definition window_expired (config : ProviderConfig) (state : ProviderState)
    (now : float) : bool :=
  float_ge_int (now - window_started_at state)%float (window_seconds config).

(** The body of the reset of the rolling window. *)
Definition reset_window (now : float) (state : ProviderState) : ProviderState :=
  mkProviderState now 0 ∅ (inflight state) (failure_count state)
    (circuit_open_until state).

Definition roll_window (config : ProviderConfig) (now : float)
    (state : ProviderState) : ProviderState :=
  if window_expired config state now then reset_window now state else state.

(** [state.org_counts.get(org_id, 0)] *)
Definition org_count (state : ProviderState) (org : string) : Z :=
  default 0 (org_counts state !! org).

(** [config.quota_per_window is not None and
     state.window_count >= config.quota_per_window] *)
Definition global_quota_exceeded (config : ProviderConfig)
    (state : ProviderState) : bool :=
  match quota_per_window config with
  | Some q => window_count state >=? q
  | None => false
  end.

(** The per-organization check; [if config.org_quotas:] is false on [None]
    and on an empty mapping. *)
Definition org_quota_exceeded (config : ProviderConfig)
    (state : ProviderState) (org : string) : bool :=
  match org_quotas config with
  | Some quotas =>
      if bool_decide (quotas = ∅) then false
      else match quotas !! org with
           | Some org_quota => org_count state org >=? org_quota
           | None => false
           end
  | None => false
  end.

(** [config.concurrency_limit is not None and
     state.inflight >= config.concurrency_limit] *)
Definition concurrency_exceeded (config : ProviderConfig)
    (state : ProviderState) : bool :=
  match concurrency_limit config with
  | Some limit => inflight state >=? limit
  | None => false
  end.

(** The three increments that admit a request. *)
Definition count_admission (org : string) (state : ProviderState) : ProviderState :=
  mkProviderState (window_started_at state) (window_count state + 1)
    (<[org := org_count state org + 1]> (org_counts state))
    (inflight state + 1) (failure_count state) (circuit_open_until state).

(** The gates of [parse_with] on the provider's state object, in the order
    of the code: the state the block leaves behind, and the exception it
    raises if any. An exception does not undo the reset of the window. *)
Definition admission (p : Provider) (config : ProviderConfig) (org : string)
    (now : float) (state : ProviderState) : ProviderState * option RouterError :=
  if negb (enabled config) then
    (state, Some (ProviderUnavailableError (Disabled p)))
  else if circuit_open state now then
    (state, Some (ProviderCircuitOpenError p))
  else if rollout_denied config org then
    (state, Some (ProviderUnavailableError (NotEnabledFor p org)))
  else
    let state := roll_window config now state in
    if global_quota_exceeded config state then
      (state, Some (ProviderQuotaExceededError (GlobalQuota p)))
    else if org_quota_exceeded config state org then
      (state, Some (ProviderQuotaExceededError (OrgQuota p org)))
    else if concurrency_exceeded config state then
      (state, Some (ProviderConcurrencyLimitError p))
    else
      (count_admission org state, None).

(** [_state[provider]] after the block mutated the state object. *)
Definition set_state (p : Provider) (state : ProviderState)
    (r : ProviderRouter) : ProviderRouter :=
  mkProviderRouter (_configs r) (<[p := state]> (_state r)).

(** [parse_with] up to the call of the client: either an exception, or the
    configuration whose client is called next. *)
Definition parse_with_admit (p : Provider) (org : string) (now : float)
    (r : ProviderRouter) : ProviderRouter * (RouterError + ProviderConfig) :=
  match _configs r !! p with
  | None => (r, inl (ValueError p))
  | Some config =>
      match _state r !! p with
      | None => (r, inl (KeyError p))
      | Some state =>
          let (state', raised) := admission p config org now state in
          match raised with
          | Some e => (set_state p state' r, inl e)
          | None => (set_state p state' r, inr config)
          end
      end
  end.

(** [max(0, state.inflight - 1)] *)
Definition release (state : ProviderState) : Z := Z.max 0 (inflight state - 1).

(** The [except] block on the state object; [now] is its own reading of
    the clock, and the sum is the rounded sum of two floats. *)
Definition record_failure (config : ProviderConfig) (now : float)
    (state : ProviderState) : ProviderState :=
  let failures := failure_count state + 1 in
  if failures >=? failure_threshold config then
    mkProviderState (window_started_at state) (window_count state)
      (org_counts state) (release state) 0
      (Some (now + cooldown_seconds config)%float)
  else
    mkProviderState (window_started_at state) (window_count state)
      (org_counts state) (release state) failures (circuit_open_until state).

(** The [else] block on the state object. *)
Definition record_success (state : ProviderState) : ProviderState :=
  mkProviderState (window_started_at state) (window_count state)
    (org_counts state) (release state) 0 (circuit_open_until state).

(** [parse_with] after the client raised. Providers are never removed from
    the two dictionaries, so the lookups of a call that was admitted
    succeed. *)
Definition parse_with_except (p : Provider) (now : float)
    (r : ProviderRouter) : ProviderRouter :=
  match _state r !! p, _configs r !! p with
  | Some state, Some config => set_state p (record_failure config now state) r
  | _, _ => r
  end.

(** [parse_with] after the client returned. *)
Definition parse_with_else (p : Provider) (r : ProviderRouter) : ProviderRouter :=
  match _state r !! p with
  | Some state => set_state p (record_success state) r
  | None => r
  end.

(** What the client does once it is called: it returns events, it raises
    an exception (an [Exception], with the message [str] gives), or the
    [await] ends with a [BaseException] outside [Exception], as
    [asyncio.CancelledError] when the task is cancelled. *)
Inductive client_answer :=
| Returns (evs : list ParsedEvent)
| Raises (message : string)
| Aborts.

(** [parse_with] run to its end with no other call in between: [answer] is
    what the client does and [later] the clock reading of the [except]
    block. The result is the exception of the admission block, or what the
    client did, which the caller sees as it is. [except Exception] does
    not catch what [Aborts] stands for, and the [else] block does not run
    either. *)
Definition parse_with (p : Provider) (org url : string) (now : float)
    (answer : client_answer) (later : float) (r : ProviderRouter)
    : ProviderRouter * (RouterError + client_answer) :=
  match parse_with_admit p org now r with
  | (r, inl err) => (r, inl err)
  | (r, inr config) =>
      match answer with
      | Returns evs => (parse_with_else p r, inr (Returns evs))
      | Raises message => (parse_with_except p later r, inr (Raises message))
      | Aborts => (r, inr Aborts)
      end
  end.

(** ** The router under concurrent callers *)

(** A [parse_with] coroutine suspended on the client: the locals it holds. *)
Record PendingCall := mkPendingCall {
  pc_provider : Provider;
  pc_client : ProviderClient;
  pc_org_id : string;
  pc_source_url : string
}.

(** The router and the calls in flight. Every block of [parse_with] runs
    under [self._lock], so the blocks are the atomic steps. *)
Record System := mkSystem {
  router : ProviderRouter;
  pending : list PendingCall
}.

(** A fresh [ProviderRouter()]. *)
Definition initial : System := mkSystem new_router [].

(** What the environment does next: a registration, a new call of
    [parse_with], or the client of the [i]-th pending call finishing: it
    returns, it raises an [Exception], or the [await] ends with a
    [BaseException] outside [Exception] (a cancelled task), which neither
    the [except] nor the [else] block sees. The clock readings are those of
    [time.monotonic()] inside the block. *)
Inductive event :=
| Register (p : Provider) (config : ProviderConfig) (now : float)
| Call (p : Provider) (org url : string) (now : float)
| ClientReturns (i : nat) (evs : list ParsedEvent)
| ClientRaises (i : nat) (now : float)
| ClientAborts (i : nat).

(** What the step shows to its caller. *)
Inductive outcome :=
| Registered
| Rejected (e : RouterError)      (* raised before the client is called *)
| Invoked (c : ProviderClient) (url : string)
                                  (* [c.parse_timetable(source_url=url)] awaited *)
| Returned (evs : list ParsedEvent)
| Reraised                        (* the client's exception, re-raised *)
| Aborted                         (* the coroutine is gone, no block ran *)
| NoSuchCall.                     (* no [i]-th pending call: nothing happens *)

Definition step (s : System) (e : event) : System * outcome :=
  match e with
  | Register p config now =>
      (mkSystem (register p config now (router s)) (pending s), Registered)
  | Call p org url now =>
      match parse_with_admit p org now (router s) with
      | (r, inl err) => (mkSystem r (pending s), Rejected err)
      | (r, inr config) =>
          (mkSystem r (pending s ++ [mkPendingCall p (client config) org url]),
           Invoked (client config) url)
      end
  | ClientReturns i evs =>
      match pending s !! i with
      | Some call =>
          (mkSystem (parse_with_else (pc_provider call) (router s))
                    (delete i (pending s)),
           Returned evs)
      | None => (s, NoSuchCall)
      end
  | ClientRaises i now =>
      match pending s !! i with
      | Some call =>
          (mkSystem (parse_with_except (pc_provider call) now (router s))
                    (delete i (pending s)),
           Reraised)
      | None => (s, NoSuchCall)
      end
  | ClientAborts i =>
      match pending s !! i with
      | Some call => (mkSystem (router s) (delete i (pending s)), Aborted)
      | None => (s, NoSuchCall)
      end
  end.

(** One line of the history of a run: the system before the event, the
    event and what it showed. *)
Record entry := mkEntry {
  before : System;
  happened : event;
  shown : outcome
}.

(** Running a trace; the history has the latest event first. *)
Fixpoint run_from (s : System) (h : list entry) (es : list event)
    : System * list entry :=
  match es with
  | [] => (s, h)
  | e :: es' =>
      run_from (step s e).1 (mkEntry s e (step s e).2 :: h) es'
  end.

Definition run (es : list event) : System * list entry :=
  run_from initial [] es.

(** The configuration and state of a provider in a system. *)
Definition config_of (s : System) (p : Provider) : option ProviderConfig :=
  _configs (router s) !! p.

Definition state_of (s : System) (p : Provider) : option ProviderState :=
  _state (router s) !! p.

(** ** Observers used by the statements *)

(** The sum of the values of [org_counts]. *)
Definition sum_counts (m : gmap string Z) : Z :=
  map_fold (fun _ n acc => n + acc) 0 m.

(** A call reaches the reset of the window when the three gates before it
    let it through, and resets the window when the window has expired. *)
Definition reaches_window (config : ProviderConfig) (state : ProviderState)
    (org : string) (now : float) : bool :=
  enabled config && negb (circuit_open state now)
  && negb (rollout_denied config org).

Definition resets_window (s : System) (p : Provider) (org : string)
    (now : float) : bool :=
  match config_of s p, state_of s p with
  | Some config, Some state =>
      reaches_window config state org now && window_expired config state now
  | _, _ => false
  end.

Definition is_invoked (o : outcome) : bool :=
  match o with Invoked _ _ => true | _ => false end.

(** Whether a request of [org'] counts: every request counts toward the
    provider's total, a request of [org] toward that of [org]. *)
Definition counted (org : option string) (org' : string) : bool :=
  match org with
  | Some o => bool_decide (org' = o)
  | None => true
  end.

(** The number of requests to [p] (of organization [org], when given) that
    were admitted since the window of [p] was last reset, read off the
    history: a registration and an expired window start a new window. *)
Fixpoint admitted_in_window (p : Provider) (org : option string)
    (h : list entry) : Z :=
  match h with
  | [] => 0
  | mkEntry s e o :: h' =>
      match e with
      | Register p' _ _ =>
          if decide (p' = p) then 0 else admitted_in_window p org h'
      | Call p' org' _ now =>
          if decide (p' = p) then
            (if is_invoked o && counted org org' then 1 else 0)
            + (if resets_window s p org' now then 0
               else admitted_in_window p org h')
          else admitted_in_window p org h'
      | _ => admitted_in_window p org h'
      end
  end.

(** The provider whose call an event completes, and whether it failed. *)
Definition completes (s : System) (e : event) : option (Provider * bool) :=
  match e with
  | ClientReturns i _ =>
      call ← pending s !! i; Some (pc_provider call, true)
  | ClientRaises i _ =>
      call ← pending s !! i; Some (pc_provider call, false)
  | _ => None
  end.

(** The length of the run of failed client calls of [p] that ends the
    history: the calls of [p] that completed, latest first, up to the
    first one that returned or the last registration of [p]. A call that
    was aborted reached neither block and is not among them. *)
Fixpoint failure_streak (p : Provider) (h : list entry) : Z :=
  match h with
  | [] => 0
  | mkEntry s e _ :: h' =>
      match e with
      | Register p' _ _ =>
          if decide (p' = p) then 0 else failure_streak p h'
      | _ =>
          match completes s e with
          | Some (p', ok) =>
              if decide (p' = p) then
                if ok then 0 else 1 + failure_streak p h'
              else failure_streak p h'
          | None => failure_streak p h'
          end
      end
  end.

(** The trace does not register [p] (again). *)
Definition keeps_registration (p : Provider) (es : list event) : Prop :=
  Forall (fun e => match e with Register p' _ _ => p' <> p | _ => True end) es.

(** The record the store holds under an identifier. *)
Definition stored_record (jid : string) (w : Memory) : option ParseJob :=
  job ← get jid w; deref w job.

(** [get] hands out a snapshot: whatever is done to the job it returned,
    the record the store holds reads as before. *)
Definition get_returns_snapshot : Prop :=
  forall (w : Memory) (jid : string) (job : ref) (f : ParseJob -> ParseJob),
    get jid w = Some job ->
    stored_record jid (mutate f job w) = stored_record jid w.

(** The same for the jobs in the list [list_for_org] returns. *)
Definition list_returns_snapshot : Prop :=
  forall (w : Memory) (org jid : string) (job : ref) (f : ParseJob -> ParseJob),
    job ∈ list_for_org org w ->
    stored_record jid (mutate f job w) = stored_record jid w.

(** A job returned earlier is not changed by a later change of the stored
    record, here by a review. *)
Definition returned_value_is_stable : Prop :=
  forall (w : Memory) (jid : string) (job : ref) (decision : ReviewDecision),
    get jid w = Some job ->
    deref (review_job jid decision w).1 job = deref w job.

(** ** Sample data *)

Definition empty_memory : Memory := mkMemory [] [].

(** A store holding one pending job, of reference [0]. *)
Definition sample_memory : Memory :=
  (create_job "job-1" 0 "org-1" "user-1" OPENAI
     "https://example.com/sample.png" empty_memory).1.

Definition sample_event (c : Q) : ParsedEvent :=
  mkParsedEvent "ok" 1 "09:00" "10:00" None [] c [].

(** The job of [sample_memory] after a parse that succeeded. *)
Definition parsed_memory : Memory :=
  (mark_success 0%nat [sample_event (9 # 10)] sample_memory).1.

(** ** Invariants of the router *)

(** What holds of a registered provider's state in every reachable system,
    whatever the configuration. *)
Record state_ok (config : ProviderConfig) (state : ProviderState) : Prop := {
  ok_sum : window_count state = sum_counts (org_counts state);
  ok_window : 0 <= window_count state;
  ok_orgs : forall o, 0 <= org_count state o;
  ok_inflight : 0 <= inflight state;
  ok_limit : forall l,
      concurrency_limit config = Some l -> 0 <= l -> inflight state <= l;
  ok_quota : forall q,
      quota_per_window config = Some q -> 0 <= q -> window_count state <= q;
  ok_org_quota : forall quotas o q,
      org_quotas config = Some quotas -> quotas !! o = Some q -> 0 <= q ->
      org_count state o <= q;
  ok_failures : 0 <= failure_count state
}.

(** How the counters of the state relate to the history of the run. *)
Record history_ok (p : Provider) (h : list entry) (config : ProviderConfig)
    (state : ProviderState) : Prop := {
  ok_total : window_count state = admitted_in_window p None h;
  ok_per_org : forall o, org_count state o = admitted_in_window p (Some o) h;
  ok_streak :
    1 <= failure_threshold config ->
    failure_count state = failure_streak p h mod failure_threshold config
}.

(** The two dictionaries of the router have the same keys, and every
    registered provider is in order. *)
Definition system_ok (s : System) (h : list entry) : Prop :=
  forall p,
    match config_of s p, state_of s p with
    | Some config, Some state =>
        state_ok config state /\ history_ok p h config state
    | None, None => True
    | _, _ => False
    end.

(** The deadlines the breaker can hold once it tripped with the deadline
    [t0] and the trace [es] ran: [t0], or the sum a later [except] block
    stored. *)
Definition deadline_after (config : ProviderConfig) (t0 : float)
    (es : list event) (t : float) : Prop :=
  t = t0 \/
  exists i now,
    ClientRaises i now ∈ es /\ t = (now + cooldown_seconds config)%float.

(** The breaker of [p] holds one of those deadlines, under [config]. *)
Definition holds_deadline (p : Provider) (config : ProviderConfig)
    (t0 : float) (es : list event) (s : System) : Prop :=
  config_of s p = Some config /\
  exists state t,
    state_of s p = Some state /\ circuit_open_until state = Some t /\
    deadline_after config t0 es t.

(** ** Sample configurations, after the tests *)

(** [quota_per_window=1, window_seconds=60, org_quotas={"org-1": 1},
    rollout=ProviderRollout(allow_by_default=False, allowlist={"org-1"})] *)
Definition quota_config : ProviderConfig :=
  mkProviderConfig 1%nat true (Some 1) 60 (Some {["org-1" := 1]}) None 3 30
    (Some (mkProviderRollout false {["org-1"]} ∅)).

(** [concurrency_limit=1, failure_threshold=2, cooldown_seconds=0.05] *)
Definition breaker_config : ProviderConfig :=
  mkProviderConfig 2%nat true None 60 None (Some 1) 2 0.05 None.

(** One call to a provider registered with [quota_config]. *)
Definition quota_trace : list event :=
  [Register OPENAI quota_config 0; Call OPENAI "org-1" "https://a" 1].

(** One call in flight at a provider registered with [breaker_config]. *)
Definition inflight_trace : list event :=
  [Register OPENROUTER breaker_config 0;
   Call OPENROUTER "org-1" "https://a" 1].

(** At that provider: a call that failed, and a second call in flight. *)
Definition failing_trace : list event :=
  [Register OPENROUTER breaker_config 0;
   Call OPENROUTER "org-1" "https://c" 1; ClientRaises 0 2;
   Call OPENROUTER "org-1" "https://d" 3].

(** * The rest of the service *)

(** ** providers.py, continued *)

(** [ProviderRouter.available_providers]: the keys of [_configs], as the
    set a caller can test membership in. *)
Definition available_providers (r : ProviderRouter) : gset Provider :=
  dom (_configs r).


(** The number of calls to [p] among the pending ones. *)
Definition calls_to (p : Provider) (l : list PendingCall) : Z :=
  Z.of_nat (length (List.filter (fun c => bool_decide (pc_provider c = p)) l)).

(** The provider an event is about: the one registered or called, or the
    one of the pending call that completes. *)
Definition target (s : System) (e : event) : option Provider :=
  match e with
  | Register p _ _ | Call p _ _ _ => Some p
  | ClientReturns i _ | ClientRaises i _ | ClientAborts i =>
      pc_provider <$> pending s !! i
  end.

(** [inflight] of [p] covers the pending calls to [p] and is within the
    limit: there are no more client calls in progress than it counts. *)
Definition inflight_covers (p : Provider) (s : System) : Prop :=
  exists config state,
    config_of s p = Some config /\ state_of s p = Some state /\
    calls_to p (pending s) <= inflight state /\
    forall limit, concurrency_limit config = Some limit ->
                  inflight state <= limit.

(** ** store.py and service.py, continued *)

(** [job.mark_running(); await self.store.update(job)] *)
Definition start_job (job : ref) (w : Memory) : Memory :=
  update job (mutate mark_running job w).

(** The atomic operations on the job memory that the service performs, the
    blocks of [submit_job], [_execute_job] and [review_job] between two
    suspension points: a creation, a review by identifier, and the three
    changes a task makes to the job object it holds. *)
Inductive store_op :=
| OpCreate (new_id : string) (now : Z) (org creator : string)
           (p : Provider) (url : string)
| OpMarkRunning (job : ref)
| OpMarkSuccess (job : ref) (evs : list ParsedEvent)
| OpMarkFailure (job : ref) (err : string)
| OpReview (jid : string) (decision : ReviewDecision).

Definition apply_op (w : Memory) (op : store_op) : Memory :=
  match op with
  | OpCreate new_id now org creator p url =>
      (create_job new_id now org creator p url w).1
  | OpMarkRunning job => start_job job w
  | OpMarkSuccess job evs => (mark_success job evs w).1
  | OpMarkFailure job err => (mark_failure job err w).1
  | OpReview jid decision => (review_job jid decision w).1
  end.

Definition run_ops (ops : list store_op) (w : Memory) : Memory :=
  fold_left apply_op ops w.

(** The job table is in order: no identifier twice, and every identifier
    leads to an object that carries it. *)
Definition store_ok (w : Memory) : Prop :=
  NoDup (map fst (_jobs w)) /\
  forall jid job,
    (jid, job) ∈ _jobs w -> exists j, deref w job = Some j /\ job_id j = jid.

(** A change of a job object that keeps its identifier, as the methods of
    [ParseJob] and the review do. *)
Definition keeps_id (f : ParseJob -> ParseJob) : Prop :=
  forall j, job_id (f j) = job_id j.

(** [ParseService._execute_job], run from its start to its end with no
    other task in between. [describe] is [str] on the router's exceptions;
    [answer] is what the client does when it is called; [now] and [later]
    are the two clock readings of [parse_with]. When the [await] of the
    client is aborted, nothing after it runs: [except Exception] catches
    it neither in [parse_with] nor here. *)
Definition _execute_job (describe : RouterError -> string) (jid : string)
    (now : float) (answer : client_answer) (later : float)
    (w : Memory) (r : ProviderRouter) : Memory * ProviderRouter :=
  match get jid w with
  | None => (w, r)
  | Some job =>
      let w := start_job job w in
      match deref w job with
      | None => (w, r)
      | Some j =>
          match parse_with_admit (provider j) (org_id j) now r with
          | (r, inl err) => ((mark_failure job (describe err) w).1, r)
          | (r, inr config) =>
              match answer with
              | Raises message =>
                  ((mark_failure job message w).1,
                   parse_with_except (provider j) later r)
              | Returns evs =>
                  ((mark_success job evs w).1,
                   parse_with_else (provider j) r)
              | Aborts => (w, r)
              end
          end
      end
  end.

(** [ParseService.submit_job]: the job is created and the task that will
    run [_execute_job(job.id)] is handed to the loop; the identifiers of
    the tasks not yet run are the third component. *)
Definition submit_job (new_id : string) (now : Z) (org creator : string)
    (p : Provider) (url : string) (w : Memory) (tasks : list string)
    : Memory * list string * ref :=
  let (w, job) := create_job new_id now org creator p url w in
  (w, tasks ++ [new_id], job).

(** ** More sample data *)

(** [str] on the router's exceptions, for the samples. *)
Definition sample_describe (err : RouterError) : string :=
  match err with
  | ProviderQuotaExceededError _ => "quota exceeded"
  | _ => "rejected"
  end.

(** A router with [OPENAI] registered under [quota_config]. *)
Definition sample_router : ProviderRouter :=
  router (run [Register OPENAI quota_config 0]).1.

(** A system with [OPENROUTER] registered under [breaker_config]. *)
Definition breaker_system : System :=
  (run [Register OPENROUTER breaker_config 0]).1.

(** * Properties *)

(** ** Numbers *)


(** A float above a reading that is not negative is not zero, and so is
    truthy. *)
Lemma float_above_is_truthy (x t : float) :
  (0 <=? x)%float = true -> (x <? t)%float = true -> truthy t = true.
Proof.
  unfold truthy. rewrite negb_true_iff.
  rewrite leb_spec, ltb_spec, FloatAxioms.eqb_spec.
  change (Prim2SF 0) with (S754_zero false).
  destruct (Prim2SF x) as [sx | sx | | sx mx ex],
           (Prim2SF t) as [st | st | | st mt et];
    try destruct sx; try destruct st; cbn; congruence.
Qed.

(** ** The job store and the review rule *)

Section JobStore.

Implicit Types (w : Memory) (job : ref) (j : ParseJob) (jid : string).

Lemma dict_get_set_eq (k : string) (v : ref) (d : jobdict) :
  dict_get k (dict_set k v d) = Some v.
Proof.
  induction d as [|[k' v'] d IH]; simpl.
  - rewrite decide_True; done.
  - destruct (decide (k = k')) as [->|Hne]; simpl.
    + rewrite decide_True; done.
    + rewrite decide_False; done.
Qed.

Lemma deref_mutate_eq w job j (f : ParseJob -> ParseJob) :
  deref w job = Some j -> deref (mutate f job w) job = Some (f j).
Proof.
  unfold deref, mutate. simpl. intros H.
  rewrite list_lookup_alter_eq, H. done.
Qed.

Lemma deref_mutate_ne w job (l : ref) (f : ParseJob -> ParseJob) :
  l <> job -> deref (mutate f job w) l = deref w l.
Proof.
  unfold deref, mutate. simpl. intros H.
  apply list_lookup_alter_ne. congruence.
Qed.

Lemma deref_update w job (l : ref) : deref (update job w) l = deref w l.
Proof. unfold update. destruct (deref w job); done. Qed.

Lemma get_update w job j :
  deref w job = Some j -> get (job_id j) (update job w) = Some job.
Proof.
  intros H. unfold update, get. rewrite H. simpl. apply dict_get_set_eq.
Qed.

(** What [mark_success] leaves in memory, in one equation. *)
Lemma mark_success_deref w job j (evs : list ParsedEvent) :
  deref w job = Some j ->
  (mark_success job evs w).2 = job /\
  deref (mark_success job evs w).1 job = Some (mark_succeeded evs j) /\
  get (job_id j) (mark_success job evs w).1 = Some job /\
  (forall l : ref, l <> job -> deref (mark_success job evs w).1 l = deref w l).
Proof.
  intros H. unfold mark_success. simpl.
  pose proof (deref_mutate_eq w job j (mark_succeeded evs) H) as Hm.
  repeat split.
  - rewrite deref_update. exact Hm.
  - apply (get_update _ _ (mark_succeeded evs j) Hm).
  - intros l Hl. rewrite deref_update. apply deref_mutate_ne, Hl.
Qed.



(** C10. On an empty list of events [mark_success] sets the status to
    [SUCCEEDED], never to [NEEDS_REVIEW]. *)
Theorem mark_success_empty_is_succeeded w job j :
  deref w job = Some j ->
  exists j',
    deref (mark_success job [] w).1 job = Some j' /\
    events j' = [] /\ status j' = SUCCEEDED /\ status j' <> NEEDS_REVIEW.
Proof.
  intros H.
  destruct (mark_success_deref w job j [] H) as (_ & Hd & _).
  exists (mark_succeeded [] j). split; [exact Hd|].
  simpl. repeat split. discriminate.
Qed.

(** C7. [review_job] returns [None] for an unknown identifier; returns the
    job and leaves the whole memory as it was when the status is neither
    [SUCCEEDED] nor [NEEDS_REVIEW]; and otherwise sets
    [metadata["review"]] and the status on the job object ("approved" and
    [SUCCEEDED] for [APPROVED], "rejected" and [FAILED] for [REJECTED]),
    stores the object under its identifier and returns it. *)
Theorem review_job_rule w jid (decision : ReviewDecision) :
  (get jid w = None -> review_job jid decision w = (w, None)) /\
  (forall job j,
      get jid w = Some job -> deref w job = Some j ->
      (status j <> SUCCEEDED -> status j <> NEEDS_REVIEW ->
       review_job jid decision w = (w, Some job)) /\
      (status j = SUCCEEDED \/ status j = NEEDS_REVIEW ->
       (review_job jid decision w).2 = Some job /\
       get (job_id j) (review_job jid decision w).1 = Some job /\
       (forall l : ref,
           l <> job -> deref (review_job jid decision w).1 l = deref w l) /\
       exists j',
         deref (review_job jid decision w).1 job = Some j' /\
         metadata j' =
           <["review" := AStr (match decision with
                               | APPROVED => "approved"
                               | REJECTED => "rejected"
                               end)]> (metadata j) /\
         status j' = match decision with
                     | APPROVED => SUCCEEDED
                     | REJECTED => FAILED
                     end /\
         job_id j' = job_id j /\ org_id j' = org_id j /\
         creator_id j' = creator_id j /\ provider j' = provider j /\
         source_url j' = source_url j /\ created_at j' = created_at j /\
         events j' = events j /\ error j' = error j)).
Proof.
  split.
  - intros H. unfold review_job. rewrite H. reflexivity.
  - intros job j Hget Hj. unfold review_job. rewrite Hget, Hj. split.
    + intros H1 H2. destruct (status j); simpl; congruence.
    + intros Hst.
      assert (reviewable (status j) = true) as ->
          by (destruct Hst as [-> | ->]; reflexivity).
      simpl.
      pose proof (deref_mutate_eq w job j (apply_review decision) Hj) as Hm.
      split; [reflexivity|]. split; [|split].
      * replace (job_id j) with (job_id (apply_review decision j))
          by (destruct decision; reflexivity).
        apply get_update, Hm.
      * intros l Hl. rewrite deref_update. apply deref_mutate_ne, Hl.
      * exists (apply_review decision j). rewrite deref_update.
        split; [exact Hm|]. destruct decision; simpl; repeat split.
Qed.

Lemma stored_record_mutate w jid job (f : ParseJob -> ParseJob) :
  get jid w = Some job ->
  stored_record jid (mutate f job w) = f <$> stored_record jid w.
Proof.
  intros H. unfold stored_record, get in *. simpl. rewrite H. simpl.
  unfold deref, mutate. simpl. apply list_lookup_alter_eq.
Qed.

(** In a table that has no key twice, an entry is what [get] finds. *)
Lemma elem_of_dict_get (k : string) (v : ref) (d : jobdict) :
  NoDup (map fst d) -> (k, v) ∈ d -> dict_get k d = Some v.
Proof.
  induction d as [|[k0 v0] d IH]; simpl; intros Hnd Hin.
  - apply elem_of_nil in Hin. contradiction.
  - apply NoDup_cons in Hnd as [Hk0 Hnd].
    apply elem_of_cons in Hin as [Hin|Hin].
    + injection Hin as -> ->. rewrite decide_True by reflexivity. reflexivity.
    + destruct (decide (k = k0)) as [->|Hne]; [|apply IH; assumption].
      exfalso. apply Hk0. apply (list_elem_of_fmap_2 fst) in Hin. exact Hin.
Qed.

(** C8, as the code has it. [get] returns the job object the store
    holds, and the jobs in the list [list_for_org] returns are the job
    objects the table holds for the organization, not copies. Mutating a
    job returned by [get], or one found in the list, changes the stored
    record: the table still holds that object, and the record read under
    an identifier of the job is the changed one; in a table in order
    every job of the list has such an identifier. A later change of the
    stored record, by a review, changes a job returned before. *)
Theorem reads_return_the_stored_objects w :
  (forall jid job (f : ParseJob -> ParseJob),
      get jid w = Some job ->
      get jid (mutate f job w) = Some job /\
      stored_record jid (mutate f job w) = f <$> stored_record jid w) /\
  (forall (org : string) job,
      job ∈ list_for_org org w <->
      job ∈ dict_values (_jobs w) /\
      exists j, deref w job = Some j /\ org_id j = org) /\
  (forall (org : string) job (f : ParseJob -> ParseJob),
      job ∈ list_for_org org w ->
      job ∈ dict_values (_jobs (mutate f job w)) /\
      deref (mutate f job w) job = f <$> deref w job /\
      (forall jid,
          get jid w = Some job ->
          stored_record jid (mutate f job w) = f <$> stored_record jid w) /\
      (store_ok w -> exists jid, get jid w = Some job)) /\
  (forall jid job j (decision : ReviewDecision),
      get jid w = Some job -> deref w job = Some j ->
      status j = SUCCEEDED \/ status j = NEEDS_REVIEW ->
      deref (review_job jid decision w).1 job = Some (apply_review decision j)).
Proof.
  split; [|split; [|split]].
  3:{ intros org job f Hin.
      assert (job ∈ dict_values (_jobs w)) as Hval.
      { unfold list_for_org in Hin.
        apply list_elem_of_In, filter_In in Hin.
        apply list_elem_of_In, Hin. }
      split; [exact Hval|]. split; [|split].
      - unfold deref, mutate. simpl. apply list_lookup_alter_eq.
      - intros jid. apply stored_record_mutate.
      - intros [Hnd _]. unfold dict_values in Hval.
        apply list_elem_of_fmap in Hval as ([jid job'] & -> & Hentry).
        exists jid. apply elem_of_dict_get; assumption. }
  - intros jid job f H. split; [exact H|]. apply stored_record_mutate, H.
  - intros org job. unfold list_for_org.
    rewrite list_elem_of_In, filter_In, <- list_elem_of_In.
    unfold has_org. split.
    + intros [Hin Hb]. split; [exact Hin|].
      destruct (deref w job) as [j|]; [|discriminate].
      exists j. split; [reflexivity|]. apply bool_decide_eq_true in Hb. exact Hb.
    + intros [Hin (j & Hj & Ho)]. split; [exact Hin|].
      rewrite Hj. apply bool_decide_eq_true. exact Ho.
  - intros jid job j decision Hget Hj Hst. unfold review_job.
    rewrite Hget, Hj.
    assert (reviewable (status j) = true) as ->
        by (destruct Hst as [-> | ->]; reflexivity).
    simpl. rewrite deref_update. apply deref_mutate_eq, Hj.
Qed.

End JobStore.

(** C8, as stated, fails: on a store holding one pending job, marking the
    job returned by [get] (or found in the list of [list_for_org]) as
    running changes the stored record without any call of [update], and a
    review changes a job returned before it. *)
Lemma reads_do_not_return_snapshots :
  ~ get_returns_snapshot /\ ~ list_returns_snapshot /\
  ~ returned_value_is_stable.
Proof.
  split; [|split].
  - intros H.
    specialize (H sample_memory "job-1" 0%nat mark_running eq_refl).
    discriminate H.
  - intros H.
    assert (0%nat ∈ list_for_org "org-1" sample_memory) as Hin
        by (apply list_elem_of_In; left; reflexivity).
    specialize (H sample_memory "org-1" "job-1" 0%nat mark_running Hin).
    discriminate H.
  - intros H.
    specialize (H parsed_memory "job-1" 0%nat REJECTED eq_refl).
    discriminate H.
Qed.


(** A parse of the sample job with no event. *)
Lemma mark_success_empty_witness :
  exists j',
    deref (mark_success 0%nat [] sample_memory).1 0%nat = Some j' /\
    events j' = [] /\ status j' = SUCCEEDED /\ status j' <> NEEDS_REVIEW.
Proof. exact (mark_success_empty_is_succeeded sample_memory 0%nat _ eq_refl). Defined.

(** The three cases of the review rule on the sample store. *)
Lemma review_job_witness :
  review_job "job-2" APPROVED sample_memory = (sample_memory, None) /\
  review_job "job-1" APPROVED sample_memory = (sample_memory, Some 0%nat) /\
  exists j',
    deref (review_job "job-1" REJECTED parsed_memory).1 0%nat = Some j' /\
    metadata j' !! "review" = Some (AStr "rejected") /\ status j' = FAILED.
Proof.
  split; [|split].
  - apply (proj1 (review_job_rule sample_memory "job-2" APPROVED)). reflexivity.
  - eapply (proj2 (review_job_rule sample_memory "job-1" APPROVED)).
    + reflexivity.
    + reflexivity.
    + discriminate.
    + discriminate.
  - destruct (proj2 (review_job_rule parsed_memory "job-1" REJECTED)
                0%nat _ eq_refl eq_refl) as [_ H].
    destruct (H (or_introl eq_refl)) as (_ & _ & _ & j' & Hd & Hm & Hs & _).
    exists j'. split; [exact Hd|]. split; [|exact Hs].
    rewrite Hm. apply lookup_insert_eq.
Defined.

(** ** The router: one provider's state *)

Section ProviderState.

Implicit Types (config : ProviderConfig) (state : ProviderState).
Implicit Types (org : string) (now : float) (p : Provider).

Lemma sum_counts_empty : sum_counts ∅ = 0.
Proof. unfold sum_counts. apply map_fold_empty. Qed.

Lemma sum_counts_insert_fresh (m : gmap string Z) (o : string) (n : Z) :
  m !! o = None -> sum_counts (<[o := n]> m) = n + sum_counts m.
Proof.
  intros H. unfold sum_counts.
  apply (map_fold_insert_L (fun _ n acc => n + acc)); [|exact H].
  intros. lia.
Qed.

Lemma sum_counts_delete (m : gmap string Z) (o : string) (n : Z) :
  m !! o = Some n -> sum_counts m = n + sum_counts (delete o m).
Proof.
  intros H. unfold sum_counts.
  apply (map_fold_delete_L (fun _ n acc => n + acc)); [|exact H].
  intros. lia.
Qed.

(** Writing a count changes the sum by the difference. *)
Lemma sum_counts_insert (m : gmap string Z) (o : string) (n : Z) :
  sum_counts (<[o := n]> m) = sum_counts m - default 0 (m !! o) + n.
Proof.
  destruct (m !! o) as [k|] eqn:E; simpl.
  - rewrite <- insert_delete_eq.
    rewrite sum_counts_insert_fresh by apply lookup_delete_eq.
    rewrite (sum_counts_delete m o k E). lia.
  - rewrite sum_counts_insert_fresh by exact E. lia.
Qed.

Lemma org_count_count_admission state org (o : string) :
  org_count (count_admission org state) o =
  org_count state o + (if decide (org = o) then 1 else 0).
Proof.
  unfold org_count at 1. simpl. rewrite lookup_insert.
  destruct (decide (org = o)) as [->|]; simpl; [reflexivity|].
  unfold org_count. lia.
Qed.

Lemma org_count_reset now state (o : string) :
  org_count (reset_window now state) o = 0.
Proof. unfold org_count. simpl. rewrite lookup_empty. reflexivity. Qed.

(** The state the admission block leaves: as found or with the window
    reset, and with the three counters incremented when it admits. *)
Lemma admission_cases p config org now state :
  let rolled := roll_window config now state in
  match (admission p config org now state).2 with
  | None =>
      reaches_window config state org now = true /\
      global_quota_exceeded config rolled = false /\
      org_quota_exceeded config rolled org = false /\
      concurrency_exceeded config rolled = false /\
      (admission p config org now state).1 = count_admission org rolled
  | Some e =>
      (reaches_window config state org now = false /\
       (admission p config org now state).1 = state /\
       (e = ProviderUnavailableError (Disabled p) /\ enabled config = false \/
        e = ProviderCircuitOpenError p /\ enabled config = true /\
          circuit_open state now = true \/
        e = ProviderUnavailableError (NotEnabledFor p org) /\
          enabled config = true /\ circuit_open state now = false /\
          rollout_denied config org = true)) \/
      (reaches_window config state org now = true /\
       (admission p config org now state).1 = rolled /\
       (e = ProviderQuotaExceededError (GlobalQuota p) /\
          global_quota_exceeded config rolled = true \/
        e = ProviderQuotaExceededError (OrgQuota p org) /\
          global_quota_exceeded config rolled = false /\
          org_quota_exceeded config rolled org = true \/
        e = ProviderConcurrencyLimitError p /\
          global_quota_exceeded config rolled = false /\
          org_quota_exceeded config rolled org = false /\
          concurrency_exceeded config rolled = true))
  end.
Proof.
  unfold admission, reaches_window.
  destruct (enabled config); simpl; [|left; auto 10].
  destruct (circuit_open state now); simpl; [left; auto 10|].
  destruct (rollout_denied config org); simpl; [left; auto 10|].
  destruct (global_quota_exceeded config (roll_window config now state));
    simpl; [right; auto 10|].
  destruct (org_quota_exceeded config (roll_window config now state) org);
    simpl; [right; auto 10|].
  destruct (concurrency_exceeded config (roll_window config now state));
    simpl; [right; auto 10|].
  auto 10.
Qed.

Lemma state_ok_new config now : state_ok config (new_state now).
Proof.
  split; simpl; intros; try lia.
  - symmetry. apply sum_counts_empty.
  - unfold org_count. simpl. rewrite lookup_empty. simpl. lia.
  - unfold org_count. simpl. rewrite lookup_empty. simpl. lia.
Qed.

Lemma state_ok_reset config now state :
  state_ok config state -> state_ok config (reset_window now state).
Proof.
  intros [Hsum Hw Ho Hi Hl Hq Hoq Hf]. split; simpl; intros; try lia.
  - symmetry. apply sum_counts_empty.
  - rewrite org_count_reset. lia.
  - eauto.
  - rewrite org_count_reset. lia.
Qed.

Lemma state_ok_roll config now state :
  state_ok config state -> state_ok config (roll_window config now state).
Proof.
  intros H. unfold roll_window.
  destruct (window_expired config state now); [|exact H].
  apply state_ok_reset, H.
Qed.

Lemma geb_false (n m : Z) : (n >=? m) = false <-> n < m.
Proof. rewrite Z.geb_leb. apply Z.leb_gt. Qed.

Lemma geb_true (n m : Z) : (n >=? m) = true <-> m <= n.
Proof. rewrite Z.geb_leb. apply Z.leb_le. Qed.

Lemma state_ok_count_admission config org state :
  state_ok config state ->
  global_quota_exceeded config state = false ->
  org_quota_exceeded config state org = false ->
  concurrency_exceeded config state = false ->
  state_ok config (count_admission org state).
Proof.
  intros [Hsum Hw Ho Hi Hl Hq Hoq Hf] Hg Hog Hc.
  split; simpl; try lia.
  - rewrite sum_counts_insert. unfold org_count. lia.
  - intros o. rewrite org_count_count_admission.
    specialize (Ho o). destruct (decide (org = o)); lia.
  - intros l El _. unfold concurrency_exceeded in Hc. rewrite El in Hc.
    apply geb_false in Hc. lia.
  - intros q Eq _. unfold global_quota_exceeded in Hg. rewrite Eq in Hg.
    apply geb_false in Hg. lia.
  - intros quotas o q Eqs Eo Hq0. rewrite org_count_count_admission.
    destruct (decide (org = o)) as [->|Hne].
    + unfold org_quota_exceeded in Hog. rewrite Eqs in Hog.
      rewrite bool_decide_eq_false_2 in Hog.
      * rewrite Eo in Hog. apply geb_false in Hog. lia.
      * intros ->. rewrite lookup_empty in Eo. discriminate.
    + specialize (Hoq quotas o q Eqs Eo Hq0). lia.
Qed.

Lemma state_ok_record_success config state :
  state_ok config state -> state_ok config (record_success state).
Proof.
  intros [Hsum Hw Ho Hi Hl Hq Hoq Hf].
  split; simpl; unfold release; try assumption; try lia.
  intros l El Hl0. specialize (Hl l El Hl0). lia.
Qed.

Lemma state_ok_record_failure config config' now state :
  state_ok config state ->
  state_ok config (record_failure config' now state).
Proof.
  intros [Hsum Hw Ho Hi Hl Hq Hoq Hf]. unfold record_failure.
  destruct (failure_count state + 1 >=? failure_threshold config');
    split; simpl; unfold release; try assumption; try lia;
    intros l El Hl0; specialize (Hl l El Hl0); lia.
Qed.

(** The invariant does not depend on the window's start and the breaker. *)
Lemma admission_state_ok p config org now state :
  state_ok config state ->
  state_ok config (admission p config org now state).1.
Proof.
  intros H. pose proof (admission_cases p config org now state) as Hc.
  simpl in Hc. destruct (admission p config org now state) as [st' [e|]];
    simpl in *.
  - destruct Hc as [(_ & -> & _) | (_ & -> & _)];
      [exact H | apply state_ok_roll, H].
  - destruct Hc as (_ & Hg & Hog & Hcc & ->).
    apply state_ok_count_admission; try assumption.
    apply state_ok_roll, H.
Qed.

End ProviderState.

(** ** The router: runs *)

Section Runs.

Implicit Types (s : System) (h : list entry) (es : list event) (e : event).
Implicit Types (config : ProviderConfig) (state : ProviderState).
Implicit Types (org url : string) (now : float) (p : Provider).

Lemma run_from_snoc s h es e :
  run_from s h (es ++ [e]) =
  ((step (run_from s h es).1 e).1,
   mkEntry (run_from s h es).1 e (step (run_from s h es).1 e).2
     :: (run_from s h es).2).
Proof.
  revert s h. induction es as [|e' es IH]; intros s h; simpl.
  - reflexivity.
  - apply IH.
Qed.

Lemma run_snoc es e :
  run (es ++ [e]) =
  ((step (run es).1 e).1,
   mkEntry (run es).1 e (step (run es).1 e).2 :: (run es).2).
Proof. apply run_from_snoc. Qed.

Lemma run_snoc_system es e : (run (es ++ [e])).1 = (step (run es).1 e).1.
Proof. rewrite run_snoc. reflexivity. Qed.

Lemma router_eta (r : ProviderRouter) :
  mkProviderRouter (_configs r) (_state r) = r.
Proof. destruct r; reflexivity. Qed.

Lemma system_eta s : mkSystem (router s) (pending s) = s.
Proof. destruct s; reflexivity. Qed.

(** Writing back the state that is there changes nothing. *)
Lemma set_state_same p state (r : ProviderRouter) :
  _state r !! p = Some state -> set_state p state r = r.
Proof.
  intros H. unfold set_state. rewrite insert_id by exact H.
  apply router_eta.
Qed.

(** The step of a call, through the cases of the admission block. *)
Lemma step_call s p org url now config state :
  config_of s p = Some config -> state_of s p = Some state ->
  step s (Call p org url now) =
  match (admission p config org now state).2 with
  | Some err =>
      (mkSystem (set_state p (admission p config org now state).1 (router s))
                (pending s),
       Rejected err)
  | None =>
      (mkSystem (set_state p (admission p config org now state).1 (router s))
                (pending s ++ [mkPendingCall p (client config) org url]),
       Invoked (client config) url)
  end.
Proof.
  unfold config_of, state_of. intros Hc Hs.
  unfold step, parse_with_admit. rewrite Hc, Hs.
  destruct (admission p config org now state) as [state' [err|]];
    reflexivity.
Qed.

Lemma step_call_unknown s p org url now :
  config_of s p = None ->
  step s (Call p org url now) = (s, Rejected (ValueError p)).
Proof.
  unfold config_of. intros Hc. unfold step, parse_with_admit.
  rewrite Hc. rewrite system_eta. reflexivity.
Qed.

Lemma config_of_set_state s p p' state (l : list PendingCall) :
  config_of (mkSystem (set_state p state (router s)) l) p' = config_of s p'.
Proof. reflexivity. Qed.

Lemma state_of_set_state s p p' state (l : list PendingCall) :
  state_of (mkSystem (set_state p state (router s)) l) p' =
  if decide (p = p') then Some state else state_of s p'.
Proof. unfold state_of. simpl. apply lookup_insert. Qed.

Lemma roll_window_count config now state :
  window_count (roll_window config now state) =
  if window_expired config state now then 0 else window_count state.
Proof. unfold roll_window. destruct (window_expired _ _ _); reflexivity. Qed.

Lemma roll_org_count config now state (o : string) :
  org_count (roll_window config now state) o =
  if window_expired config state now then 0 else org_count state o.
Proof.
  unfold roll_window. destruct (window_expired _ _ _); [|reflexivity].
  apply org_count_reset.
Qed.

Lemma roll_failure_count config now state :
  failure_count (roll_window config now state) = failure_count state.
Proof. unfold roll_window. destruct (window_expired _ _ _); reflexivity. Qed.

Lemma roll_inflight config now state :
  inflight (roll_window config now state) = inflight state.
Proof. unfold roll_window. destruct (window_expired _ _ _); reflexivity. Qed.

Lemma roll_circuit config now state :
  circuit_open_until (roll_window config now state) =
  circuit_open_until state.
Proof. unfold roll_window. destruct (window_expired _ _ _); reflexivity. Qed.

(** An event that is neither a registration of [p], nor a call to [p],
    nor the completion of a call to [p], leaves the readings of the
    history of [p] as they were. *)
Lemma history_ok_call p h s org url now o config state :
  config_of s p = Some config -> state_of s p = Some state ->
  history_ok p h config state ->
  o = match (admission p config org now state).2 with
      | Some err => Rejected err
      | None => Invoked (client config) url
      end ->
  history_ok p (mkEntry s (Call p org url now) o :: h) config
    (admission p config org now state).1.
Proof.
  intros Hc Hs [Ht Hpo Hst] ->.
  pose proof (admission_cases p config org now state) as Hcases.
  simpl in Hcases.
  assert (resets_window s p org now =
          reaches_window config state org now
          && window_expired config state now) as Hres
      by (unfold resets_window; rewrite Hc, Hs; reflexivity).
  destruct (admission p config org now state) as [st' [err|]]; simpl in *.
  - destruct Hcases as [(Hr & -> & _) | (Hr & -> & _)];
      rewrite Hr in Hres; simpl in Hres.
    + split; simpl; intros; destruct (decide (p = p)); try congruence;
        simpl; rewrite ?Hres; auto.
    + split; simpl; [| intros o |];
        (destruct (decide (p = p)); [|congruence]); simpl; rewrite ?Hres.
      * rewrite roll_window_count, Ht.
        destruct (window_expired config state now); reflexivity.
      * rewrite roll_org_count, Hpo.
        destruct (window_expired config state now); reflexivity.
      * rewrite roll_failure_count. auto.
  - destruct Hcases as (Hr & _ & _ & _ & ->).
    rewrite Hr in Hres; simpl in Hres.
    split; simpl; [| intros o |];
      (destruct (decide (p = p)); [|congruence]); simpl; rewrite ?Hres.
    + rewrite roll_window_count, Ht.
      destruct (window_expired config state now); lia.
    + rewrite org_count_count_admission, roll_org_count, Hpo.
      destruct (decide (org = o)) as [->|Hne].
      * rewrite bool_decide_eq_true_2 by reflexivity.
        destruct (window_expired config state now); lia.
      * rewrite bool_decide_eq_false_2 by exact Hne.
        destruct (window_expired config state now); lia.
    + rewrite roll_failure_count. auto.
Qed.

(** An event about another provider does not show in the readings of
    the history of [p]. *)
Lemma history_ok_skip p h s e o config state :
  match e with
  | Register p' _ _ | Call p' _ _ _ => p' <> p
  | _ => match completes s e with Some (p', _) => p' <> p | None => True end
  end ->
  history_ok p h config state ->
  history_ok p (mkEntry s e o :: h) config state.
Proof.
  intros He [Ht Hpo Hst].
  destruct e as [p' c n | p' org url n | i evs | i n | i]; simpl in He.
  - split; simpl; intros; rewrite decide_False by exact He; auto.
  - split; simpl; intros; rewrite ?decide_False by exact He; auto.
  - split; simpl; intros; auto.
    destruct (pending s !! i) as [call|]; simpl in *; auto.
    rewrite decide_False by exact He. auto.
  - split; simpl; intros; auto.
    destruct (pending s !! i) as [call|]; simpl in *; auto.
    rewrite decide_False by exact He. auto.
  - split; simpl; intros; auto.
Qed.

Lemma streak_after_failure (streak threshold failures : Z) :
  1 <= threshold ->
  0 <= failures ->
  failures = streak mod threshold ->
  (if failures + 1 >=? threshold then 0 else failures + 1) =
  (1 + streak) mod threshold.
Proof.
  intros Ht Hf E.
  assert (0 <= streak mod threshold < threshold) as Hb
      by (apply Z.mod_pos_bound; lia).
  replace ((1 + streak) mod threshold)
    with ((failures + 1) mod threshold)
    by (rewrite E, Z.add_mod_idemp_l by lia; f_equal; lia).
  destruct (failures + 1 >=? threshold) eqn:G.
  - apply geb_true in G.
    replace (failures + 1) with threshold by lia.
    symmetry. apply Z_mod_same_full.
  - apply geb_false in G. symmetry. apply Z.mod_small. lia.
Qed.

(** Every step keeps the system in order and its history in step. *)
Lemma system_ok_step s h e :
  system_ok s h -> system_ok (step s e).1 (mkEntry s e (step s e).2 :: h).
Proof.
  intros Hok p. pose proof (Hok p) as Hp.
  destruct e as [p0 c0 n0 | p0 org url n0 | i evs | i n0 | i].
  - (* Register *)
    unfold step, config_of, state_of, register; simpl.
    rewrite !lookup_insert. destruct (decide (p0 = p)) as [->|Hne].
    + split; [apply state_ok_new|].
      split; simpl; intros; rewrite ?decide_True by reflexivity;
        reflexivity.
    + fold (config_of s p) (state_of s p).
      destruct (config_of s p), (state_of s p); try exact Hp.
      destruct Hp as [H1 H2]. split; [exact H1|].
      apply history_ok_skip; [exact Hne | exact H2].
  - (* Call *)
    destruct (decide (p0 = p)) as [->|Hne].
    + destruct (config_of s p) as [config|] eqn:Hc,
               (state_of s p) as [state|] eqn:Hs; try contradiction.
      * rewrite (step_call s p org url n0 config state Hc Hs).
        destruct Hp as [H1 H2].
        pose proof (history_ok_call p h s org url n0 _ config state
                      Hc Hs H2 eq_refl) as H2'.
        pose proof (admission_state_ok p config org n0 state H1) as H1'.
        destruct (admission p config org n0 state) as [st' [err|]];
          simpl in *; rewrite config_of_set_state, state_of_set_state, Hc,
            decide_True by reflexivity; split; assumption.
      * rewrite (step_call_unknown s p org url n0 Hc). simpl.
        rewrite Hc, Hs. exact I.
    + assert (config_of (step s (Call p0 org url n0)).1 p = config_of s p
              /\ state_of (step s (Call p0 org url n0)).1 p = state_of s p)
        as [-> ->].
      { destruct (config_of s p0) as [config|] eqn:Hc.
        - destruct (state_of s p0) as [state|] eqn:Hs.
          + rewrite (step_call s p0 org url n0 config state Hc Hs).
            destruct ((admission p0 config org n0 state).2); simpl;
              rewrite config_of_set_state, state_of_set_state,
                decide_False by exact Hne; split; reflexivity.
          + unfold step, parse_with_admit. unfold config_of in Hc.
            unfold state_of in Hs. rewrite Hc, Hs. simpl.
            split; reflexivity.
        - rewrite (step_call_unknown s p0 org url n0 Hc). split; reflexivity. }
      destruct (config_of s p), (state_of s p); try exact Hp.
      destruct Hp as [H1 H2]. split; [exact H1|].
      apply history_ok_skip; [exact Hne | exact H2].
  - (* ClientReturns *)
    unfold step. destruct (pending s !! i) as [call|] eqn:Hi.
    + unfold parse_with_else. fold (state_of s (pc_provider call)).
      destruct (decide (pc_provider call = p)) as [Hp0|Hne].
      * rewrite Hp0.
        destruct (config_of s p) as [config|] eqn:Hc,
                 (state_of s p) as [state|] eqn:Hs; try contradiction.
        -- simpl. rewrite config_of_set_state, state_of_set_state, Hc,
             decide_True by reflexivity.
           destruct Hp as [H1 [Ht Hpo Hst]].
           split; [apply state_ok_record_success, H1|].
           split; simpl; intros; [exact Ht | exact (Hpo _) |].
           rewrite Hi; simpl. rewrite decide_True by exact Hp0.
           symmetry. apply Z.mod_0_l. lia.
        -- unfold config_of, state_of in *. simpl. rewrite Hc, Hs. exact I.
      * assert (forall r, config_of (mkSystem
                  match state_of s (pc_provider call) with
                  | Some state => set_state (pc_provider call)
                                    (record_success state) (router s)
                  | None => router s
                  end r) p = config_of s p /\
                state_of (mkSystem
                  match state_of s (pc_provider call) with
                  | Some state => set_state (pc_provider call)
                                    (record_success state) (router s)
                  | None => router s
                  end r) p = state_of s p) as Hsame.
        { intros r. destruct (state_of s (pc_provider call)).
          - rewrite config_of_set_state, state_of_set_state,
              decide_False by exact Hne. split; reflexivity.
          - split; reflexivity. }
        simpl. destruct (Hsame (delete i (pending s))) as [-> ->].
        destruct (config_of s p), (state_of s p); try exact Hp.
        destruct Hp as [H1 H2]. split; [exact H1|].
        apply history_ok_skip; [|exact H2]. simpl. rewrite Hi. exact Hne.
    + simpl. destruct (config_of s p), (state_of s p); try exact Hp.
      destruct Hp as [H1 H2]. split; [exact H1|].
      apply history_ok_skip; [|exact H2]. simpl. rewrite Hi. exact I.
  - (* ClientRaises *)
    unfold step. destruct (pending s !! i) as [call|] eqn:Hi.
    + unfold parse_with_except.
      fold (state_of s (pc_provider call)) (config_of s (pc_provider call)).
      destruct (decide (pc_provider call = p)) as [Hp0|Hne].
      * rewrite Hp0.
        destruct (config_of s p) as [config|] eqn:Hc,
                 (state_of s p) as [state|] eqn:Hs; try contradiction.
        -- simpl. rewrite config_of_set_state, state_of_set_state, Hc,
             decide_True by reflexivity.
           destruct Hp as [H1 [Ht Hpo Hst]].
           split; [apply state_ok_record_failure, H1|].
           unfold record_failure.
           split; simpl; intros.
           ++ destruct (_ >=? _); simpl; exact Ht.
           ++ destruct (_ >=? _); simpl; exact (Hpo _).
           ++ rewrite Hi; simpl. rewrite decide_True by exact Hp0.
              rewrite <- (streak_after_failure _ _ (failure_count state));
                auto; [|apply H1].
              destruct (_ >=? _); reflexivity.
        -- unfold config_of, state_of in *. simpl. rewrite Hc, Hs. exact I.
      * assert (forall r, config_of (mkSystem
                  match state_of s (pc_provider call),
                        config_of s (pc_provider call) with
                  | Some state, Some config =>
                      set_state (pc_provider call)
                        (record_failure config n0 state) (router s)
                  | _, _ => router s
                  end r) p = config_of s p /\
                state_of (mkSystem
                  match state_of s (pc_provider call),
                        config_of s (pc_provider call) with
                  | Some state, Some config =>
                      set_state (pc_provider call)
                        (record_failure config n0 state) (router s)
                  | _, _ => router s
                  end r) p = state_of s p) as Hsame.
        { intros r. destruct (state_of s (pc_provider call)),
                             (config_of s (pc_provider call));
            rewrite ?config_of_set_state, ?state_of_set_state,
              ?decide_False by exact Hne; split; reflexivity. }
        simpl. destruct (Hsame (delete i (pending s))) as [-> ->].
        destruct (config_of s p), (state_of s p); try exact Hp.
        destruct Hp as [H1 H2]. split; [exact H1|].
        apply history_ok_skip; [|exact H2]. simpl. rewrite Hi. exact Hne.
    + simpl. destruct (config_of s p), (state_of s p); try exact Hp.
      destruct Hp as [H1 H2]. split; [exact H1|].
      apply history_ok_skip; [|exact H2]. simpl. rewrite Hi. exact I.
  - (* ClientAborts *)
    assert (config_of (step s (ClientAborts i)).1 p = config_of s p /\
            state_of (step s (ClientAborts i)).1 p = state_of s p) as [-> ->]
      by (unfold step; destruct (pending s !! i); split; reflexivity).
    destruct (config_of s p), (state_of s p); try exact Hp.
    destruct Hp as [H1 H2]. split; [exact H1|].
    apply history_ok_skip; [exact I | exact H2].
Qed.

(** A call of [parse_with] that runs to its end before anything else
    happens is a [Call] step followed by the completion of the call it
    appended. *)
Lemma parse_with_as_steps s p org url now (answer : client_answer) later :
  router
    (step (step s (Call p org url now)).1
          (match answer with
           | Returns evs => ClientReturns (length (pending s)) evs
           | Raises _ => ClientRaises (length (pending s)) later
           | Aborts => ClientAborts (length (pending s))
           end)).1
  = (parse_with p org url now answer later (router s)).1.
Proof.
  unfold parse_with, step at 2.
  destruct (parse_with_admit p org now (router s)) as [r [err|config]];
    simpl.
  - destruct answer; simpl;
      rewrite (lookup_ge_None_2 (pending s) (length (pending s)))
        by reflexivity; reflexivity.
  - destruct answer; simpl; rewrite list_lookup_middle by reflexivity;
      reflexivity.
Qed.

End Runs.

(** ** The router: the claims *)

Section Router.

Implicit Types (s : System) (h : list entry) (es : list event) (e : event).
Implicit Types (config : ProviderConfig) (state : ProviderState).
Implicit Types (org url : string) (now : float) (p : Provider).

Lemma initial_ok : system_ok initial [].
Proof.
  intros p. unfold config_of, state_of. simpl. rewrite !lookup_empty. exact I.
Qed.

(** Every run from a fresh router ends in a system in order. *)
Lemma run_ok es : system_ok (run es).1 (run es).2.
Proof.
  induction es as [|e es IH] using rev_ind.
  - apply initial_ok.
  - rewrite run_snoc. simpl. apply system_ok_step, IH.
Qed.

Lemma run_state_ok es p config state :
  config_of (run es).1 p = Some config ->
  state_of (run es).1 p = Some state ->
  state_ok config state /\ history_ok p (run es).2 config state.
Proof.
  intros Hc Hs. pose proof (run_ok es p) as H. rewrite Hc, Hs in H. exact H.
Qed.

Lemma run_registered es p state :
  state_of (run es).1 p = Some state ->
  exists config, config_of (run es).1 p = Some config.
Proof.
  intros Hs. pose proof (run_ok es p) as H. rewrite Hs in H.
  destruct (config_of (run es).1 p) as [config|]; [eauto | contradiction].
Qed.

(** C5. In every state of a provider reached by registrations and calls
    of [parse_with], in any interleaving, [window_count] is the sum of
    the values of [org_counts]. *)
Theorem window_count_is_sum_of_org_counts es p state :
  state_of (run es).1 p = Some state ->
  window_count state = sum_counts (org_counts state).
Proof.
  intros Hs. destruct (run_registered es p state Hs) as [config Hc].
  destruct (run_state_ok es p config state Hc Hs) as [H _]. apply H.
Qed.

Lemma reaches_window_true config state org now :
  reaches_window config state org now = true <->
  enabled config = true /\ circuit_open state now = false /\
  rollout_denied config org = false.
Proof.
  unfold reaches_window. rewrite !andb_true_iff, !negb_true_iff. tauto.
Qed.

(** A call that finds [inflight] at the limit is not admitted. *)
Lemma admission_at_limit p config org now state limit :
  concurrency_limit config = Some limit -> limit <= inflight state ->
  exists err,
    (admission p config org now state).2 = Some err /\
    inflight (admission p config org now state).1 = inflight state /\
    (reaches_window config state org now = true ->
     global_quota_exceeded config (roll_window config now state) = false ->
     org_quota_exceeded config (roll_window config now state) org = false ->
     err = ProviderConcurrencyLimitError p).
Proof.
  intros Hl Hle.
  assert (concurrency_exceeded config (roll_window config now state) = true)
    as Hex.
  { unfold concurrency_exceeded. rewrite Hl, roll_inflight.
    apply geb_true, Hle. }
  pose proof (admission_cases p config org now state) as Hc. simpl in Hc.
  destruct (admission p config org now state) as [st' [err|]]; simpl in *.
  - exists err. split; [reflexivity|].
    destruct Hc as [(Hr & -> & _) | (Hr & -> & Hwhy)].
    + split; [reflexivity|]. congruence.
    + split; [apply roll_inflight|]. intros _ Hg Ho.
      destruct Hwhy as [[_ ?] | [(_ & _ & ?) | (-> & _)]];
        [congruence | congruence | reflexivity].
  - destruct Hc as (_ & _ & _ & ? & _). congruence.
Qed.

(** C4. In every state of a provider reached by registrations and calls
    of [parse_with], in any interleaving, [inflight] is at least 0 and,
    for a limit that is set (to a count, that is, not below 0), at most
    [concurrency_limit]. A call that finds [inflight] at the limit or
    above is rejected, the client is not called and [inflight] stays;
    when the gates before the limit let the call through, the exception
    is [ProviderConcurrencyLimitError]. *)
Theorem inflight_within_limit es s p config state :
  (run es).1 = s ->
  config_of s p = Some config ->
  state_of s p = Some state ->
  0 <= inflight state /\
  (forall limit,
      concurrency_limit config = Some limit -> 0 <= limit ->
      inflight state <= limit) /\
  (forall limit org url now,
      concurrency_limit config = Some limit -> limit <= inflight state ->
      exists err state',
        step s (Call p org url now) =
          (mkSystem (set_state p state' (router s)) (pending s),
           Rejected err) /\
        inflight state' = inflight state /\
        (reaches_window config state org now = true ->
         global_quota_exceeded config (roll_window config now state) = false ->
         org_quota_exceeded config (roll_window config now state) org = false ->
         err = ProviderConcurrencyLimitError p)).
Proof.
  intros <- Hc Hs.
  destruct (run_state_ok es p config state Hc Hs) as [Hok _].
  split; [apply Hok|]. split; [apply Hok|].
  intros limit org url now Hl Hle.
  destruct (admission_at_limit p config org now state limit Hl Hle)
    as (err & Herr & Hin & Hwhy).
  exists err, (admission p config org now state).1.
  rewrite (step_call _ p org url now config state Hc Hs), Herr.
  auto.
Qed.


Lemma is_allowed_iff (r : ProviderRollout) org :
  is_allowed r org = true <->
  allow_by_default r = true /\ org ∉ blocklist r \/
  allow_by_default r = false /\ org ∈ allowlist r.
Proof.
  unfold is_allowed. destruct (allow_by_default r).
  - rewrite bool_decide_eq_true. intuition congruence.
  - rewrite bool_decide_eq_true. intuition congruence.
Qed.

(** A call rejected by one of the first three gates leaves the whole
    system as it was. *)
Lemma step_call_rejected_early s p org url now config state err :
  config_of s p = Some config -> state_of s p = Some state ->
  admission p config org now state = (state, Some err) ->
  step s (Call p org url now) = (s, Rejected err).
Proof.
  intros Hc Hs Ha.
  rewrite (step_call s p org url now config state Hc Hs), Ha. simpl.
  rewrite set_state_same by exact Hs. rewrite system_eta. reflexivity.
Qed.

(** C3. For a provider whose configuration has a rollout, the rollout
    lets an organization through exactly when [allow_by_default] holds
    and the organization is not in the blocklist, or [allow_by_default]
    does not hold and the organization is in the allowlist. A call for
    an organization it denies is rejected without calling the client and
    without touching the router, with [ProviderUnavailableError] unless
    the circuit gate, which comes first, rejects the call; a call for an
    organization it lets through is never rejected as not enabled for
    the organization, and it is admitted when the other gates let it
    through as well: the three counters are incremented and the client is
    called. *)
Theorem rollout_gate s p config state (r : ProviderRollout) org url now :
  config_of s p = Some config ->
  state_of s p = Some state ->
  rollout config = Some r ->
  (is_allowed r org = true <->
   allow_by_default r = true /\ org ∉ blocklist r \/
   allow_by_default r = false /\ org ∈ allowlist r) /\
  (is_allowed r org = false ->
   exists err,
     step s (Call p org url now) = (s, Rejected err) /\
     (circuit_open state now = false ->
      exists why, err = ProviderUnavailableError why) /\
     (enabled config = true -> circuit_open state now = false ->
      err = ProviderUnavailableError (NotEnabledFor p org))) /\
  (is_allowed r org = true ->
   forall p' org',
     (step s (Call p org url now)).2 <>
     Rejected (ProviderUnavailableError (NotEnabledFor p' org'))) /\
  (is_allowed r org = true ->
   enabled config = true -> circuit_open state now = false ->
   global_quota_exceeded config (roll_window config now state) = false ->
   org_quota_exceeded config (roll_window config now state) org = false ->
   concurrency_exceeded config (roll_window config now state) = false ->
   step s (Call p org url now) =
   (mkSystem
      (set_state p (count_admission org (roll_window config now state))
         (router s))
      (pending s ++ [mkPendingCall p (client config) org url]),
    Invoked (client config) url)).
Proof.
  intros Hc Hs Hr. split; [apply is_allowed_iff|]. split; [|split].
  2:{ intros Hal p' org'.
      assert (rollout_denied config org = false) as Hrd
          by (unfold rollout_denied; rewrite Hr, Hal; reflexivity).
      rewrite (step_call s p org url now config state Hc Hs).
      pose proof (admission_cases p config org now state) as Hcases.
      simpl in Hcases.
      destruct (admission p config org now state) as [st' [err|]];
        simpl in *; [|discriminate].
      intros [= ->].
      destruct Hcases as [(_ & _ & Hwhy) | (_ & _ & Hwhy)].
      + destruct Hwhy as [[? _] | [[? _] | (_ & _ & _ & ?)]]; congruence.
      + destruct Hwhy as [[? _] | [[? _] | [? _]]]; congruence. }
  2:{ intros Hal He Hco Hg Ho Hl.
      assert (rollout_denied config org = false) as Hrd
          by (unfold rollout_denied; rewrite Hr, Hal; reflexivity).
      rewrite (step_call s p org url now config state Hc Hs).
      unfold admission. rewrite He, Hco, Hrd. simpl.
      rewrite Hg, Ho, Hl. reflexivity. }
  - intros Hden.
    assert (rollout_denied config org = true) as Hrd
        by (unfold rollout_denied; rewrite Hr, Hden; reflexivity).
    destruct (enabled config) eqn:He.
    + destruct (circuit_open state now) eqn:Hco.
      * exists (ProviderCircuitOpenError p). split.
        -- apply (step_call_rejected_early s p org url now config state);
             try assumption.
           unfold admission. rewrite He, Hco. reflexivity.
        -- split; intros; discriminate.
      * exists (ProviderUnavailableError (NotEnabledFor p org)). split.
        -- apply (step_call_rejected_early s p org url now config state);
             try assumption.
           unfold admission. rewrite He, Hco, Hrd. reflexivity.
        -- split; intros; eauto.
    + exists (ProviderUnavailableError (Disabled p)). split.
      * apply (step_call_rejected_early s p org url now config state);
          try assumption.
        unfold admission. rewrite He. reflexivity.
      * split; intros; [eauto | discriminate].
Qed.

(** C2. In every run of registrations and calls of [parse_with], in any
    interleaving, the number of requests admitted in the current window
    of a provider is at most [quota_per_window] when that is set, and
    the number admitted for an organization listed in [org_quotas] at
    most its quota (quotas being counts, not below 0). A call that gets
    as far as the quota checks in a window whose quota, or whose quota
    for the organization, is used up is rejected with
    [ProviderQuotaExceededError]. *)
Theorem admitted_within_quota es s h p config state :
  run es = (s, h) ->
  config_of s p = Some config ->
  state_of s p = Some state ->
  (forall q,
      quota_per_window config = Some q -> 0 <= q ->
      admitted_in_window p None h <= q) /\
  (forall quotas org q,
      org_quotas config = Some quotas -> quotas !! org = Some q -> 0 <= q ->
      admitted_in_window p (Some org) h <= q) /\
  (forall org url now,
      reaches_window config state org now = true ->
      window_expired config state now = false ->
      (forall q,
          quota_per_window config = Some q ->
          q <= admitted_in_window p None h ->
          (step s (Call p org url now)).2 =
          Rejected (ProviderQuotaExceededError (GlobalQuota p))) /\
      (forall quotas q,
          org_quotas config = Some quotas -> quotas !! org = Some q ->
          q <= admitted_in_window p (Some org) h ->
          exists scope,
            (step s (Call p org url now)).2 =
            Rejected (ProviderQuotaExceededError scope))).
Proof.
  intros Hrun Hc Hs.
  assert (s = (run es).1) as -> by (rewrite Hrun; reflexivity).
  assert (h = (run es).2) as -> by (rewrite Hrun; reflexivity).
  destruct (run_state_ok es p config state Hc Hs) as [Hok Hh].
  split; [|split].
  - intros q Hq Hq0. rewrite <- (ok_total _ _ _ _ Hh). apply Hok; assumption.
  - intros quotas org q Hqs Ho Hq0. rewrite <- (ok_per_org _ _ _ _ Hh).
    apply (ok_org_quota _ _ Hok quotas); assumption.
  - intros org url now Hreach Hexp.
    assert (roll_window config now state = state) as Hroll
        by (unfold roll_window; rewrite Hexp; reflexivity).
    rewrite (step_call _ p org url now config state Hc Hs).
    apply reaches_window_true in Hreach. destruct Hreach as (He & Hco & Hrd).
    unfold admission. rewrite He, Hco, Hrd, Hroll. simpl. split.
    + intros q Hq Hle. rewrite <- (ok_total _ _ _ _ Hh) in Hle.
      unfold global_quota_exceeded. rewrite Hq.
      rewrite (proj2 (geb_true _ _) Hle). reflexivity.
    + intros quotas q Hqs Ho Hle. rewrite <- (ok_per_org _ _ _ _ Hh) in Hle.
      destruct (global_quota_exceeded config state); [eexists; reflexivity|].
      unfold org_quota_exceeded. rewrite Hqs.
      rewrite bool_decide_eq_false_2
        by (intros ->; rewrite lookup_empty in Ho; discriminate).
      rewrite Ho, (proj2 (geb_true _ _) Hle). eexists; reflexivity.
Qed.

Lemma failure_streak_nonneg p h : 0 <= failure_streak p h.
Proof.
  induction h as [|[s e o] h IH]; simpl; [lia|].
  destruct e; simpl;
    repeat match goal with
           | |- context [decide ?P] => destruct (decide P)
           | |- context [pending s !! ?i] => destruct (pending s !! i); simpl
           end; lia.
Qed.

Lemma failure_streak_failure p s e o h :
  completes s e = Some (p, false) ->
  failure_streak p (mkEntry s e o :: h) = 1 + failure_streak p h.
Proof.
  intros H. destruct e; simpl in *; try discriminate.
  - destruct (pending s !! i); simpl in *; discriminate.
  - destruct (pending s !! i) as [call|]; simpl in *; [|discriminate].
    injection H as ->. rewrite decide_True by reflexivity. reflexivity.
Qed.

Lemma step_raises s i now call config state :
  pending s !! i = Some call ->
  config_of s (pc_provider call) = Some config ->
  state_of s (pc_provider call) = Some state ->
  step s (ClientRaises i now) =
  (mkSystem (set_state (pc_provider call) (record_failure config now state)
               (router s))
            (delete i (pending s)),
   Reraised).
Proof.
  unfold config_of, state_of. intros Hi Hc Hs.
  unfold step, parse_with_except. rewrite Hi, Hs, Hc. reflexivity.
Qed.

Lemma step_raises_unknown s i now call :
  pending s !! i = Some call ->
  config_of s (pc_provider call) = None ->
  config_of (step s (ClientRaises i now)).1 (pc_provider call) = None.
Proof.
  unfold config_of. intros Hi Hc.
  unfold step, parse_with_except. rewrite Hi, Hc.
  destruct (_state (router s) !! pc_provider call); exact Hc.
Qed.

Lemma deadline_after_more config t0 es es' t :
  es ⊆ es' -> deadline_after config t0 es t -> deadline_after config t0 es' t.
Proof.
  intros Hsub [-> | (i & n & Hin & ->)]; [left; reflexivity|].
  right. exists i, n. split; [apply Hsub, Hin | reflexivity].
Qed.

(** Once the breaker of [p] tripped it holds a deadline, that of the trip or
    of a later one, whatever happens, while [p] is not registered again. *)
Lemma holds_deadline_step p config t0 es s e :
  holds_deadline p config t0 es s ->
  match e with Register p' _ _ => p' <> p | _ => True end ->
  holds_deadline p config t0 (es ++ [e]) (step s e).1.
Proof.
  intros (Hc & state & t & Hs & Ht & Hd) Hreg.
  assert (deadline_after config t0 (es ++ [e]) t) as Hd'
      by (apply (deadline_after_more config t0 es); [set_solver | exact Hd]).
  destruct e as [p0 c0 n0 | p0 org url n0 | i evs | i n0 | i].
  - unfold holds_deadline, config_of, state_of, step, register; simpl.
    rewrite !lookup_insert_ne by exact Hreg. split; [exact Hc|]. eauto.
  - destruct (decide (p0 = p)) as [->|Hne].
    + rewrite (step_call s p org url n0 config state Hc Hs).
      pose proof (admission_cases p config org n0 state) as Hcases.
      simpl in Hcases.
      destruct (admission p config org n0 state) as [st' [err|]];
        simpl in *; (split; [exact Hc|]); exists st', t;
        rewrite state_of_set_state, decide_True by reflexivity;
        (split; [reflexivity|]); (split; [|exact Hd']).
      * destruct Hcases as [(_ & -> & _) | (_ & -> & _)];
          rewrite ?roll_circuit; exact Ht.
      * destruct Hcases as (_ & _ & _ & _ & ->). simpl.
        rewrite roll_circuit. exact Ht.
    + split.
      * destruct (config_of s p0) as [config0|] eqn:Hc0;
          [destruct (state_of s p0) as [state0|] eqn:Hs0|].
        -- rewrite (step_call s p0 org url n0 config0 state0 Hc0 Hs0).
           destruct ((admission p0 config0 org n0 state0).2); exact Hc.
        -- unfold step, parse_with_admit. unfold config_of in Hc0.
           unfold state_of in Hs0. rewrite Hc0, Hs0. exact Hc.
        -- rewrite (step_call_unknown s p0 org url n0 Hc0). exact Hc.
      * exists state, t. split; [|split; assumption].
        destruct (config_of s p0) as [config0|] eqn:Hc0;
          [destruct (state_of s p0) as [state0|] eqn:Hs0|].
        -- rewrite (step_call s p0 org url n0 config0 state0 Hc0 Hs0).
           destruct ((admission p0 config0 org n0 state0).2); simpl;
             rewrite state_of_set_state, decide_False by exact Hne;
             exact Hs.
        -- unfold step, parse_with_admit. unfold config_of in Hc0.
           unfold state_of in Hs0. rewrite Hc0, Hs0. exact Hs.
        -- rewrite (step_call_unknown s p0 org url n0 Hc0). exact Hs.
  - unfold step. destruct (pending s !! i) as [call|];
      [|split; [exact Hc | eauto]].
    unfold parse_with_else. fold (state_of s (pc_provider call)).
    destruct (decide (pc_provider call = p)) as [->|Hne].
    + rewrite Hs. split; [exact Hc|]. exists (record_success state), t.
      simpl. rewrite state_of_set_state, decide_True by reflexivity. auto.
    + destruct (state_of s (pc_provider call)); simpl;
        (split; [exact Hc|]); exists state, t;
        rewrite ?state_of_set_state, ?decide_False by exact Hne; auto.
  - unfold step. destruct (pending s !! i) as [call|];
      [|split; [exact Hc | eauto]].
    unfold parse_with_except.
    fold (state_of s (pc_provider call)) (config_of s (pc_provider call)).
    destruct (decide (pc_provider call = p)) as [->|Hne].
    + rewrite Hs, Hc. split; [exact Hc|].
      unfold record_failure.
      destruct (failure_count state + 1 >=? failure_threshold config).
      * eexists _, (n0 + cooldown_seconds config)%float. simpl.
        rewrite state_of_set_state, decide_True by reflexivity.
        split; [reflexivity|]. split; [reflexivity|].
        right. exists i, n0. split; [set_solver | reflexivity].
      * eexists _, t. simpl.
        rewrite state_of_set_state, decide_True by reflexivity. auto.
    + destruct (state_of s (pc_provider call)),
               (config_of s (pc_provider call)); simpl;
        (split; [exact Hc|]); exists state, t;
        rewrite ?state_of_set_state, ?decide_False by exact Hne; auto.
  - unfold step. destruct (pending s !! i) as [call|];
      (split; [exact Hc | eauto]).
Qed.

Lemma holds_deadline_run p config t0 es :
  forall done s h,
    holds_deadline p config t0 done s ->
    keeps_registration p es ->
    holds_deadline p config t0 (done ++ es) (run_from s h es).1.
Proof.
  induction es as [|e es IH]; intros done s h Hopen Hkeep; simpl.
  - rewrite app_nil_r. exact Hopen.
  - inversion Hkeep; subst.
    replace (done ++ e :: es) with ((done ++ [e]) ++ es)
      by (rewrite <- app_assoc; reflexivity).
    apply IH; [|assumption]. apply holds_deadline_step; assumption.
Qed.

(** Before the deadline its breaker holds, an enabled provider rejects
    every call and nothing changes. *)
Lemma open_rejects p config state t s org url now :
  config_of s p = Some config -> state_of s p = Some state ->
  circuit_open_until state = Some t ->
  enabled config = true ->
  (0 <=? now)%float = true -> (now <? t)%float = true ->
  step s (Call p org url now) = (s, Rejected (ProviderCircuitOpenError p)).
Proof.
  intros Hc Hs Ht He H0 Hlt.
  apply (step_call_rejected_early s p org url now config state);
    try assumption.
  unfold admission. rewrite He. simpl.
  assert (circuit_open state now = true) as ->; [|reflexivity].
  unfold circuit_open. rewrite Ht, Hlt.
  rewrite (float_above_is_truthy now t H0 Hlt). reflexivity.
Qed.

(** C1. When a client call of a provider fails and completes a run of
    [failure_threshold] failed client calls in a row, [failure_count] is
    back to 0 and [circuit_open_until] is the clock reading of the
    [except] block plus [cooldown_seconds], the sum of the two floats as
    the machine rounds it. The run is counted from the last call that
    returned or the registration ([k = 1]) or, in a longer series of
    failures, from the last time the breaker tripped. From then on,
    whatever calls start and finish in between, [circuit_open_until] holds
    a deadline, that one or the one a later failure stored in its place,
    and every call to the provider made before the deadline it holds is
    rejected with [ProviderCircuitOpenError], the client is not called and
    the router is not touched. (The clock does not read below 0; the
    provider is not registered again; its configuration is enabled, as the
    one that admitted the failed calls was.) *)
Theorem breaker_trips_and_rejects es i now s h p config state (k : Z) :
  run (es ++ [ClientRaises i now]) = (s, h) ->
  completes (run es).1 (ClientRaises i now) = Some (p, false) ->
  config_of s p = Some config ->
  state_of s p = Some state ->
  1 <= k ->
  failure_streak p h = k * failure_threshold config ->
  failure_count state = 0 /\
  circuit_open_until state = Some (now + cooldown_seconds config)%float /\
  (enabled config = true ->
   forall es',
     keeps_registration p es' ->
     exists state' t,
       state_of (run_from s h es').1 p = Some state' /\
       circuit_open_until state' = Some t /\
       deadline_after config (now + cooldown_seconds config) es' t /\
       forall org url now',
         (0 <=? now')%float = true -> (now' <? t)%float = true ->
         step (run_from s h es').1 (Call p org url now') =
         ((run_from s h es').1, Rejected (ProviderCircuitOpenError p))).
Proof.
  intros Hrun Hcompl Hc Hs Hk Hstreak.
  assert (s = (run (es ++ [ClientRaises i now])).1) as Es
      by (rewrite Hrun; reflexivity).
  assert (h = (run (es ++ [ClientRaises i now])).2) as Eh
      by (rewrite Hrun; reflexivity).
  assert (1 <= failure_threshold config) as Hth.
  { rewrite Eh, run_snoc in Hstreak. simpl snd in Hstreak.
    rewrite (failure_streak_failure p _ _ _ _ Hcompl) in Hstreak.
    pose proof (failure_streak_nonneg p (run es).2). nia. }
  assert (failure_count state = 0) as Hzero.
  { pose proof Hc as Hc'. pose proof Hs as Hs'. rewrite Es in Hc', Hs'.
    destruct (run_state_ok _ p config state Hc' Hs') as [_ Hh].
    rewrite (ok_streak _ _ _ _ Hh Hth), <- Eh, Hstreak.
    apply Z_mod_mult. }
  assert (circuit_open_until state
          = Some (now + cooldown_seconds config)%float) as Hopen.
  { rewrite Es, run_snoc_system in Hc, Hs. simpl in Hcompl.
    destruct (pending (run es).1 !! i) as [call|] eqn:Hi; [|discriminate].
    simpl in Hcompl. injection Hcompl as Hp.
    pose proof (run_ok es p) as Hok. rewrite <- Hp in Hok.
    destruct (config_of (run es).1 (pc_provider call)) as [config0|] eqn:Hc0,
             (state_of (run es).1 (pc_provider call)) as [state0|] eqn:Hs0;
      try contradiction.
    - rewrite (step_raises _ i now call config0 state0 Hi Hc0 Hs0) in Hc, Hs.
      cbn [fst] in Hc, Hs. rewrite config_of_set_state in Hc.
      rewrite state_of_set_state, decide_True in Hs by exact Hp.
      rewrite <- Hp, Hc0 in Hc.
      assert (config0 = config) as -> by congruence.
      injection Hs as <-. unfold record_failure in *.
      destruct (failure_count state0 + 1 >=? failure_threshold config);
        [reflexivity|]. simpl in Hzero.
      destruct Hok as [Hok _]. pose proof (ok_failures _ _ Hok). lia.
    - rewrite <- Hp, (step_raises_unknown _ i now call Hi Hc0) in Hc.
      discriminate. }
  split; [exact Hzero|]. split; [exact Hopen|].
  intros Hen es' Hkeep.
  destruct (holds_deadline_run p config (now + cooldown_seconds config) es'
              [] s h) as (Hc' & state' & t & Hs' & Ht & Hd);
    [|exact Hkeep|].
  { split; [exact Hc|]. exists state, (now + cooldown_seconds config)%float.
    split; [exact Hs|]. split; [exact Hopen|]. left; reflexivity. }
  exists state', t. split; [exact Hs'|]. split; [exact Ht|].
  split; [exact Hd|].
  intros org url now' H0 Hlt.
  apply (open_rejects p config state' t); assumption.
Qed.

End Router.

(** After one admitted call both sides are 1. *)
Lemma window_count_sum_witness :
  state_of (run quota_trace).1 OPENAI
  = Some (count_admission "org-1" (new_state 0)) /\
  window_count (count_admission "org-1" (new_state 0))
  = sum_counts (org_counts (count_admission "org-1" (new_state 0))).
Proof.
  split; [reflexivity|].
  apply (window_count_is_sum_of_org_counts quota_trace OPENAI). reflexivity.
Defined.

(** With one call in flight at a limit of 1 the next call is turned away. *)
Lemma inflight_within_limit_witness :
  exists err state',
    step (run inflight_trace).1 (Call OPENROUTER "org-2" "https://b" 2) =
      (mkSystem (set_state OPENROUTER state' (router (run inflight_trace).1))
                (pending (run inflight_trace).1),
       Rejected err) /\
    inflight state' = 1 /\
    err = ProviderConcurrencyLimitError OPENROUTER.
Proof.
  destruct (inflight_within_limit inflight_trace _ OPENROUTER breaker_config
              _ eq_refl eq_refl eq_refl) as (_ & _ & H).
  destruct (H 1 "org-2" "https://b" 2%float eq_refl)
    as (err & state' & Hs & Hi & He).
  - vm_compute. discriminate.
  - exists err, state'. split; [exact Hs|]. split; [exact Hi|].
    apply He; reflexivity.
Defined.


(** An organization outside the allowlist is turned away, and one in it
    is admitted while the quota lasts. *)
Lemma rollout_gate_witness :
  step (run quota_trace).1 (Call OPENAI "org-2" "https://c" 2)
  = ((run quota_trace).1,
     Rejected (ProviderUnavailableError (NotEnabledFor OPENAI "org-2"))) /\
  (step (run [Register OPENAI quota_config 0]).1
     (Call OPENAI "org-1" "https://a" 1)).2
  = Invoked 1%nat "https://a".
Proof.
  split.
  - destruct (rollout_gate (run quota_trace).1 OPENAI quota_config _
                (mkProviderRollout false {["org-1"]} ∅) "org-2" "https://c"
                2%float eq_refl eq_refl eq_refl) as (_ & Hdenied & _).
    destruct (Hdenied eq_refl) as (err & Hstep & _ & Herr).
    rewrite Hstep. rewrite (Herr eq_refl eq_refl). reflexivity.
  - destruct (rollout_gate (run [Register OPENAI quota_config 0]).1 OPENAI
                quota_config _ (mkProviderRollout false {["org-1"]} ∅)
                "org-1" "https://a" 1%float eq_refl eq_refl eq_refl)
      as (_ & _ & _ & Hadmitted).
    rewrite Hadmitted; reflexivity.
Defined.

(** One admission within a quota of 1, and the next call rejected. *)
Lemma admitted_within_quota_witness :
  admitted_in_window OPENAI None (run quota_trace).2 <= 1 /\
  admitted_in_window OPENAI (Some "org-1") (run quota_trace).2 <= 1 /\
  (step (run quota_trace).1 (Call OPENAI "org-1" "https://b" 2)).2
  = Rejected (ProviderQuotaExceededError (GlobalQuota OPENAI)).
Proof.
  destruct (admitted_within_quota quota_trace _ _ OPENAI quota_config _
              eq_refl eq_refl eq_refl) as (Hglobal & Horg & Hover).
  split; [apply Hglobal; [reflexivity | lia]|].
  split; [apply (Horg {["org-1" := 1]}); [reflexivity | reflexivity | lia]|].
  destruct (Hover "org-1" "https://b" 2%float eq_refl eq_refl) as [Hq _].
  apply (Hq 1); [reflexivity|]. vm_compute. discriminate.
Defined.

(** Two failures at a threshold of 2 open the breaker for 0.05 s: a call
    at 4.01 is rejected, and so was the one tried at 4.005. *)
Lemma breaker_trips_witness :
  failure_count (record_failure breaker_config 4
                   (count_admission "org-1" (record_failure breaker_config 2
                      (count_admission "org-1" (new_state 0))))) = 0 /\
  step (run (failing_trace ++ [ClientRaises 0 4]
             ++ [Call OPENROUTER "org-2" "https://x" 4.005])).1
       (Call OPENROUTER "org-1" "https://e" 4.01)
  = ((run (failing_trace ++ [ClientRaises 0 4]
           ++ [Call OPENROUTER "org-2" "https://x" 4.005])).1,
     Rejected (ProviderCircuitOpenError OPENROUTER)).
Proof.
  destruct (breaker_trips_and_rejects failing_trace 0 4%float _ _ OPENROUTER
              breaker_config _ 1 eq_refl eq_refl eq_refl eq_refl)
    as (Hcount & Hopen & Hreject).
  - lia.
  - reflexivity.
  - split; [exact Hcount|].
    destruct (Hreject eq_refl [Call OPENROUTER "org-2" "https://x" 4.005%float])
      as (state' & t & Hs & Ht & _ & Hrejected).
    + repeat constructor.
    + vm_compute in Hs. injection Hs as <-.
      simpl in Ht. injection Ht as <-.
      apply (Hrejected "org-1" "https://e" 4.01%float); reflexivity.
Defined.

(** * Further properties *)

(** ** The job table *)

Section JobTable.

Implicit Types (w : Memory) (job : ref) (j : ParseJob) (jid : string).
Implicit Types (d : jobdict).

Lemma dict_get_set_other (k k' : string) (v : ref) d :
  k <> k' -> dict_get k' (dict_set k v d) = dict_get k' d.
Proof.
  intros Hne. induction d as [|[k0 v0] d IH]; simpl.
  - rewrite decide_False; [reflexivity | congruence].
  - destruct (decide (k = k0)) as [->|Hne0]; simpl.
    + rewrite !decide_False; [reflexivity | congruence | congruence].
    + rewrite IH. reflexivity.
Qed.

Lemma dict_get_elem_of (k : string) (v : ref) d :
  dict_get k d = Some v -> (k, v) ∈ d.
Proof.
  induction d as [|[k0 v0] d IH]; simpl; [discriminate|].
  destruct (decide (k = k0)) as [->|Hne].
  - intros [= ->]. left.
  - intros H. right. apply IH, H.
Qed.

(** Writing what is there already changes nothing. *)
Lemma dict_set_same (k : string) (v : ref) d :
  dict_get k d = Some v -> dict_set k v d = d.
Proof.
  induction d as [|[k0 v0] d IH]; simpl; [discriminate|].
  destruct (decide (k = k0)) as [->|Hne].
  - intros [= ->]. reflexivity.
  - intros H. rewrite IH by exact H. reflexivity.
Qed.

Lemma key_of_dict_set (k k' : string) (v : ref) d :
  k' ∈ map fst (dict_set k v d) -> k' = k \/ k' ∈ map fst d.
Proof.
  induction d as [|[k0 v0] d IH]; simpl.
  - intros H. apply list_elem_of_singleton in H. auto.
  - destruct (decide (k = k0)) as [->|Hne]; simpl.
    + intros H. apply elem_of_cons in H as [->|H]; [auto|].
      right. right. exact H.
    + intros H. apply elem_of_cons in H as [->|H].
      * right. left.
      * destruct (IH H) as [->|H']; [auto|]. right. right. exact H'.
Qed.

Lemma dict_set_NoDup (k : string) (v : ref) d :
  NoDup (map fst d) -> NoDup (map fst (dict_set k v d)).
Proof.
  induction d as [|[k0 v0] d IH]; simpl; intros Hnd.
  - apply NoDup_singleton.
  - apply NoDup_cons in Hnd as [Hk0 Hnd].
    destruct (decide (k = k0)) as [->|Hne]; simpl.
    + apply NoDup_cons. split; assumption.
    + apply NoDup_cons. split; [|apply IH, Hnd].
      intros H. apply key_of_dict_set in H as [->|H]; [congruence|].
      contradiction.
Qed.

(** The entries after a write, in a table without repeated keys: the
    written one, and the old ones under other keys. *)
Lemma elem_of_dict_set (k k' : string) (v v' : ref) d :
  NoDup (map fst d) ->
  (k', v') ∈ dict_set k v d ->
  (k' = k /\ v' = v) \/ (k' <> k /\ (k', v') ∈ d).
Proof.
  induction d as [|[k0 v0] d IH]; simpl; intros Hnd.
  - intros H. apply list_elem_of_singleton in H. injection H as -> ->. auto.
  - apply NoDup_cons in Hnd as [Hk0 Hnd].
    destruct (decide (k = k0)) as [->|Hne].
    + intros H. apply elem_of_cons in H as [H|H].
      * injection H as -> ->. auto.
      * right. split; [|right; exact H]. intros ->.
        apply Hk0. apply (list_elem_of_fmap_2 fst) in H. exact H.
    + intros H. apply elem_of_cons in H as [H|H].
      * injection H as -> ->. right. split; [congruence | left].
      * destruct (IH Hnd H) as [?|[? ?]]; [auto|].
        right. split; [assumption | right; assumption].
Qed.

Lemma store_ok_mutate w job (f : ParseJob -> ParseJob) :
  keeps_id f -> store_ok w -> store_ok (mutate f job w).
Proof.
  intros Hf [Hnd Hin]. split; [exact Hnd|].
  intros jid l Hl. destruct (Hin jid l Hl) as (j & Hj & Hid).
  destruct (decide (l = job)) as [->|Hne].
  - exists (f j). split; [apply deref_mutate_eq, Hj|]. rewrite Hf. exact Hid.
  - exists j. split; [|exact Hid]. rewrite deref_mutate_ne by exact Hne.
    exact Hj.
Qed.

Lemma store_ok_update w job : store_ok w -> store_ok (update job w).
Proof.
  intros [Hnd Hin]. unfold update.
  destruct (deref w job) as [j|] eqn:Hj; [|split; assumption].
  split; simpl.
  - apply dict_set_NoDup, Hnd.
  - intros jid l Hl. apply elem_of_dict_set in Hl; [|exact Hnd].
    destruct Hl as [[-> ->]|[_ Hl]].
    + exists j. split; [exact Hj | reflexivity].
    + apply Hin, Hl.
Qed.

Lemma store_ok_create w (new_id : string) (now : Z) (org creator : string)
    (p : Provider) (url : string) :
  store_ok w -> store_ok (create_job new_id now org creator p url w).1.
Proof.
  intros [Hnd Hin]. unfold create_job. split; simpl.
  - apply dict_set_NoDup, Hnd.
  - intros jid l Hl. apply elem_of_dict_set in Hl; [|exact Hnd].
    unfold deref. simpl. destruct Hl as [[-> ->]|[_ Hl]].
    + eexists. split; [apply list_lookup_middle; reflexivity | reflexivity].
    + destruct (Hin jid l Hl) as (j & Hj & Hid). exists j.
      split; [|exact Hid]. apply lookup_app_l_Some, Hj.
Qed.

Lemma store_ok_review w jid (decision : ReviewDecision) :
  store_ok w -> store_ok (review_job jid decision w).1.
Proof.
  intros Hok. unfold review_job.
  destruct (get jid w) as [job|]; [|exact Hok].
  destruct (deref w job) as [j|]; [|exact Hok].
  destruct (negb (reviewable (status j))); [exact Hok|]. simpl.
  apply store_ok_update, store_ok_mutate; [|exact Hok].
  intros j0. destruct decision; reflexivity.
Qed.

Lemma store_ok_apply_op w (op : store_op) :
  store_ok w -> store_ok (apply_op w op).
Proof.
  intros Hok. destruct op; simpl.
  - apply store_ok_create, Hok.
  - apply store_ok_update, store_ok_mutate; [|exact Hok]. intros j; reflexivity.
  - apply store_ok_update, store_ok_mutate; [|exact Hok]. intros j; reflexivity.
  - apply store_ok_update, store_ok_mutate; [|exact Hok]. intros j; reflexivity.
  - apply store_ok_review, Hok.
Qed.

Lemma store_ok_empty : store_ok empty_memory.
Proof.
  split; simpl; [apply NoDup_nil_2|]. intros jid job H.
  apply elem_of_nil in H. contradiction.
Qed.

Lemma store_ok_run_ops (ops : list store_op) w :
  store_ok w -> store_ok (run_ops ops w).
Proof.
  revert w. induction ops as [|op ops IH]; intros w Hok; simpl; [exact Hok|].
  apply IH, store_ok_apply_op, Hok.
Qed.

(** X1. Whatever the service has done to an empty store, in whatever
    order, the job found under an identifier is an object that carries
    that identifier. *)
Theorem get_returns_job_of_that_id (ops : list store_op) jid job :
  get jid (run_ops ops empty_memory) = Some job ->
  exists j, deref (run_ops ops empty_memory) job = Some j /\ job_id j = jid.
Proof.
  intros Hget. destruct (store_ok_run_ops ops _ store_ok_empty) as [_ Hin].
  apply Hin, dict_get_elem_of, Hget.
Qed.

Lemma memory_eta w : mkMemory (heap w) (_jobs w) = w.
Proof. destruct w; reflexivity. Qed.

Lemma update_stored w jid job j :
  store_ok w -> get jid w = Some job -> deref w job = Some j ->
  job_id j = jid /\ update job w = w.
Proof.
  intros [Hnd Hin] Hget Hj.
  destruct (Hin jid job (dict_get_elem_of _ _ _ Hget)) as (j0 & Hj0 & Hid).
  assert (j0 = j) as -> by congruence. split; [exact Hid|].
  unfold update. rewrite Hj, Hid. unfold get in Hget.
  rewrite dict_set_same by exact Hget. apply memory_eta.
Qed.

(** X2. In a store the service has worked on, [update] on a job obtained
    from [get] changes nothing, also after the job was changed in place:
    the change is in the store already. *)
Theorem update_of_stored_job_is_noop (ops : list store_op) jid job
    (f : ParseJob -> ParseJob) :
  keeps_id f ->
  get jid (run_ops ops empty_memory) = Some job ->
  update job (mutate f job (run_ops ops empty_memory)) =
  mutate f job (run_ops ops empty_memory).
Proof.
  intros Hf Hget.
  pose proof (store_ok_run_ops ops _ store_ok_empty) as Hok.
  destruct Hok as [Hnd Hin].
  destruct (Hin jid job (dict_get_elem_of _ _ _ Hget)) as (j & Hj & Hid).
  assert (store_ok (mutate f job (run_ops ops empty_memory))) as Hok'
      by (apply store_ok_mutate; [exact Hf | split; assumption]).
  apply (update_stored _ jid job (f j) Hok').
  - exact Hget.
  - apply deref_mutate_eq, Hj.
Qed.

Lemma values_NoDup w : store_ok w -> NoDup (dict_values (_jobs w)).
Proof.
  intros [Hnd Hin]. unfold dict_values.
  induction (_jobs w) as [|[k l] d IH]; simpl in *; [apply NoDup_nil_2|].
  apply NoDup_cons in Hnd as [Hk Hnd]. apply NoDup_cons. split.
  - intros Hl. apply list_elem_of_fmap in Hl as ([k' l'] & El & Hl').
    simpl in El. subst l'.
    destruct (Hin k l) as (j & Hj & Hid); [left|].
    destruct (Hin k' l) as (j' & Hj' & Hid'); [right; exact Hl'|].
    assert (k' = k) as -> by congruence.
    apply Hk. apply (list_elem_of_fmap_2 fst) in Hl'. exact Hl'.
  - apply IH; [exact Hnd|]. intros jid job H. apply Hin. right. exact H.
Qed.

Lemma NoDup_List_filter {A} (f : A -> bool) (l : list A) :
  NoDup l -> NoDup (List.filter f l).
Proof.
  induction l as [|x l IH]; simpl; intros Hnd; [exact Hnd|].
  apply NoDup_cons in Hnd as [Hx Hnd].
  destruct (f x); [|apply IH, Hnd].
  apply NoDup_cons. split; [|apply IH, Hnd].
  intros H. apply list_elem_of_In, filter_In in H as [H _].
  apply Hx, list_elem_of_In, H.
Qed.

(** X3. In a store the service has worked on, [list_for_org] returns
    every stored job of the organization, each once, and nothing else. *)
Theorem list_for_org_each_job_once (ops : list store_op) (org : string) :
  NoDup (list_for_org org (run_ops ops empty_memory)) /\
  (forall job,
      job ∈ list_for_org org (run_ops ops empty_memory) <->
      exists j,
        deref (run_ops ops empty_memory) job = Some j /\ org_id j = org /\
        get (job_id j) (run_ops ops empty_memory) = Some job).
Proof.
  pose proof (store_ok_run_ops ops _ store_ok_empty) as Hok.
  set (w := run_ops ops empty_memory) in *. split.
  - unfold list_for_org. apply NoDup_List_filter, values_NoDup, Hok.
  - intros job. unfold list_for_org.
    rewrite list_elem_of_In, filter_In, <- list_elem_of_In.
    unfold has_org, dict_values. destruct Hok as [Hnd Hin]. split.
    + intros [Hl Hb].
      apply list_elem_of_fmap in Hl as ([k l] & El & Hl). simpl in El. subst l.
      destruct (Hin k job Hl) as (j & Hj & Hid). rewrite Hj in Hb.
      exists j. split; [exact Hj|].
      split; [apply bool_decide_eq_true in Hb; exact Hb|].
      rewrite Hid. apply elem_of_dict_get; assumption.
    + intros (j & Hj & Ho & Hget). split.
      * apply dict_get_elem_of in Hget.
        apply (list_elem_of_fmap_2 snd) in Hget. exact Hget.
      * rewrite Hj. apply bool_decide_eq_true. exact Ho.
Qed.

(** X4. [submit_job] returns a new job object that [get] finds under the
    identifier drawn: pending, with no events, no error and no metadata.
    The task is handed to the loop under that identifier; the jobs under
    other identifiers and the objects there were are as before. *)
Theorem submit_job_creates_pending_job w (tasks : list string)
    (new_id : string) (now : Z) (org creator : string) (p : Provider)
    (url : string) :
  get new_id (submit_job new_id now org creator p url w tasks).1.1 =
    Some (submit_job new_id now org creator p url w tasks).2 /\
  deref (submit_job new_id now org creator p url w tasks).1.1
        (submit_job new_id now org creator p url w tasks).2 =
    Some (mkParseJob new_id org creator p url now PENDING [] None ∅) /\
  (submit_job new_id now org creator p url w tasks).1.2 = tasks ++ [new_id] /\
  (forall jid,
      jid <> new_id ->
      get jid (submit_job new_id now org creator p url w tasks).1.1 =
      get jid w) /\
  (forall l j,
      deref w l = Some j ->
      deref (submit_job new_id now org creator p url w tasks).1.1 l = Some j).
Proof.
  unfold submit_job, create_job, get, deref. simpl.
  split; [apply dict_get_set_eq|].
  split; [apply list_lookup_middle; reflexivity|].
  split; [reflexivity|]. split.
  - intros jid Hne. apply dict_get_set_other. congruence.
  - intros l j Hj. apply lookup_app_l_Some, Hj.
Qed.

(** What [mark_failure] leaves in memory. *)
Lemma mark_failure_deref w job j (err : string) :
  deref w job = Some j ->
  deref (mark_failure job err w).1 job = Some (mark_failed err j) /\
  get (job_id j) (mark_failure job err w).1 = Some job /\
  (forall l : ref, l <> job -> deref (mark_failure job err w).1 l = deref w l).
Proof.
  intros H. unfold mark_failure. simpl.
  pose proof (deref_mutate_eq w job j (mark_failed err) H) as Hm.
  repeat split.
  - rewrite deref_update. exact Hm.
  - apply (get_update _ _ (mark_failed err j) Hm).
  - intros l Hl. rewrite deref_update. apply deref_mutate_ne, Hl.
Qed.

(** X5. [mark_failure] sets the status of the job object to [FAILED] and
    its error to the message, keeps the events attached before and the
    other fields, leaves the other objects alone, stores the object under
    its identifier and returns it. *)
Theorem mark_failure_records_error w job j (err : string) :
  deref w job = Some j ->
  (mark_failure job err w).2 = job /\
  get (job_id j) (mark_failure job err w).1 = Some job /\
  (forall l : ref, l <> job -> deref (mark_failure job err w).1 l = deref w l) /\
  exists j',
    deref (mark_failure job err w).1 job = Some j' /\
    status j' = FAILED /\ error j' = Some err /\ events j' = events j /\
    job_id j' = job_id j /\ org_id j' = org_id j /\
    creator_id j' = creator_id j /\ provider j' = provider j /\
    source_url j' = source_url j /\ created_at j' = created_at j /\
    metadata j' = metadata j.
Proof.
  intros H. destruct (mark_failure_deref w job j err H) as (Hd & Hg & Hother).
  split; [reflexivity|]. split; [exact Hg|]. split; [exact Hother|].
  exists (mark_failed err j). split; [exact Hd|]. simpl. repeat split.
Qed.

End JobTable.

(** A job created in an empty store and marked as running in place is
    stored already. *)
Lemma update_of_stored_job_witness :
  update 0%nat (mutate mark_running 0%nat sample_memory) =
  mutate mark_running 0%nat sample_memory.
Proof.
  apply (update_of_stored_job_is_noop
           [OpCreate "job-1" 0 "org-1" "user-1" OPENAI
              "https://example.com/sample.png"] "job-1" 0%nat mark_running).
  - intros j. reflexivity.
  - reflexivity.
Defined.

(** The job of the sample store carries the identifier it is found under. *)
Lemma get_returns_job_witness :
  exists j, deref sample_memory 0%nat = Some j /\ job_id j = "job-1".
Proof.
  apply (get_returns_job_of_that_id
           [OpCreate "job-1" 0 "org-1" "user-1" OPENAI
              "https://example.com/sample.png"] "job-1" 0%nat).
  reflexivity.
Defined.

(** A failure recorded on the sample job after a parse. *)
Lemma mark_failure_witness :
  exists j',
    deref (mark_failure 0%nat "upstream failure" parsed_memory).1 0%nat
    = Some j' /\
    status j' = FAILED /\ error j' = Some "upstream failure" /\
    events j' = [sample_event (9 # 10)].
Proof.
  destruct (mark_failure_records_error parsed_memory 0%nat _
              "upstream failure" eq_refl)
    as (_ & _ & _ & j' & Hd & Hs & He & Hev & _).
  exists j'. repeat split; assumption.
Defined.

(** ** The life of a job *)

Section Lifecycle.

Implicit Types (w : Memory) (job : ref) (j : ParseJob) (jid : string).
Implicit Types (decision : ReviewDecision) (r : ProviderRouter).

(** After [update], the job is still found under the identifier it was
    found under before. *)
Lemma get_after_update w jid job j :
  get jid w = Some job -> deref w job = Some j ->
  get jid (update job w) = Some job.
Proof.
  intros Hget Hj. unfold update. rewrite Hj. unfold get in *. simpl.
  destruct (decide (job_id j = jid)) as [<-|Hne].
  - apply dict_get_set_eq.
  - rewrite dict_get_set_other by exact Hne. exact Hget.
Qed.

Lemma changed_in_place w jid job j (f : ParseJob -> ParseJob) :
  get jid w = Some job -> deref w job = Some j ->
  get jid (update job (mutate f job w)) = Some job /\
  deref (update job (mutate f job w)) job = Some (f j) /\
  (forall l : ref,
      l <> job -> deref (update job (mutate f job w)) l = deref w l).
Proof.
  intros Hget Hj.
  pose proof (deref_mutate_eq w job j f Hj) as Hm.
  split; [apply (get_after_update _ jid job (f j)); [exact Hget | exact Hm]|].
  split; [rewrite deref_update; exact Hm|].
  intros l Hl. rewrite deref_update. apply deref_mutate_ne, Hl.
Qed.

Lemma review_applies w jid job j decision :
  get jid w = Some job -> deref w job = Some j ->
  reviewable (status j) = true ->
  review_job jid decision w =
  (update job (mutate (apply_review decision) job w), Some job).
Proof.
  intros Hget Hj Hr. unfold review_job. rewrite Hget, Hj, Hr. reflexivity.
Qed.

Lemma review_skips w jid job j decision :
  get jid w = Some job -> deref w job = Some j ->
  reviewable (status j) = false ->
  review_job jid decision w = (w, Some job).
Proof.
  intros Hget Hj Hr. unfold review_job. rewrite Hget, Hj, Hr. reflexivity.
Qed.

(** A change in place that changes nothing, followed by [update]. *)
Lemma unchanged_in_place w jid job j (f : ParseJob -> ParseJob) :
  get jid w = Some job -> deref w job = Some j ->
  dict_get (job_id j) (_jobs w) = Some job -> f j = j ->
  update job (mutate f job w) = w.
Proof.
  intros Hget Hj Hstored Hf.
  assert (mutate f job w = w) as ->.
  { unfold mutate, deref in *. destruct w as [hp jobs]. simpl in *. f_equal.
    apply list_eq. intros i. destruct (decide (i = job)) as [->|Hne].
    - rewrite list_lookup_alter_eq, Hj. simpl. rewrite Hf. reflexivity.
    - apply list_lookup_alter_ne. congruence. }
  unfold update. rewrite Hj. rewrite dict_set_same by exact Hstored.
  apply memory_eta.
Qed.

(** X6. A rejection is final: once [review_job] has rejected a job, every
    later review of it, whatever the decision, returns the job and leaves
    the memory as it is. *)
Theorem rejection_is_final w jid job j decision :
  get jid w = Some job -> deref w job = Some j ->
  status j = SUCCEEDED \/ status j = NEEDS_REVIEW ->
  review_job jid decision (review_job jid REJECTED w).1 =
  ((review_job jid REJECTED w).1, Some job).
Proof.
  intros Hget Hj Hst.
  assert (reviewable (status j) = true) as Hr
      by (destruct Hst as [-> | ->]; reflexivity).
  rewrite (review_applies w jid job j REJECTED Hget Hj Hr). simpl.
  destruct (changed_in_place w jid job j (apply_review REJECTED) Hget Hj)
    as (Hget' & Hj' & _).
  apply (review_skips _ jid job _ decision Hget' Hj'). reflexivity.
Qed.

(** X7. An approval can be repeated but is not final: approving an
    approved job again leaves the memory as it is, and rejecting it
    afterwards sets the status to [FAILED] and [metadata["review"]] to
    "rejected". *)
Theorem approval_is_idempotent_not_final w jid job j :
  get jid w = Some job -> deref w job = Some j ->
  status j = SUCCEEDED \/ status j = NEEDS_REVIEW ->
  review_job jid APPROVED (review_job jid APPROVED w).1 =
    ((review_job jid APPROVED w).1, Some job) /\
  exists j',
    deref (review_job jid REJECTED (review_job jid APPROVED w).1).1 job
    = Some j' /\
    status j' = FAILED /\
    metadata j' = <["review" := AStr "rejected"]> (metadata j) /\
    events j' = events j.
Proof.
  intros Hget Hj Hst.
  assert (reviewable (status j) = true) as Hr
      by (destruct Hst as [-> | ->]; reflexivity).
  rewrite (review_applies w jid job j APPROVED Hget Hj Hr). simpl.
  destruct (changed_in_place w jid job j (apply_review APPROVED) Hget Hj)
    as (Hget' & Hj' & _).
  split.
  - rewrite (review_applies _ jid job _ APPROVED Hget' Hj' eq_refl).
    f_equal.
    apply (unchanged_in_place _ jid job (apply_review APPROVED j));
      try assumption.
    + unfold update. rewrite (deref_mutate_eq w job j _ Hj). simpl.
      apply dict_get_set_eq.
    + unfold apply_review, set_status, set_metadata. simpl.
      rewrite insert_insert_eq. reflexivity.
  - rewrite (review_applies _ jid job _ REJECTED Hget' Hj' eq_refl). simpl.
    destruct (changed_in_place _ jid job _ (apply_review REJECTED) Hget' Hj')
      as (_ & Hj'' & _).
    eexists. split; [exact Hj''|]. simpl.
    split; [reflexivity|]. split; [apply insert_insert_eq | reflexivity].
Qed.

(** [_execute_job] on a job that is there, as two changes in place. *)
Lemma execute_job_unfold (describe : RouterError -> string) w r jid job j
    (now later : float) (answer : client_answer) :
  get jid w = Some job -> deref w job = Some j ->
  _execute_job describe jid now answer later w r =
  match parse_with_admit (provider j) (org_id j) now r with
  | (r', inl err) =>
      ((mark_failure job (describe err) (start_job job w)).1, r')
  | (r', inr config) =>
      match answer with
      | Raises message =>
          ((mark_failure job message (start_job job w)).1,
           parse_with_except (provider j) later r')
      | Returns evs =>
          ((mark_success job evs (start_job job w)).1,
           parse_with_else (provider j) r')
      | Aborts => (start_job job w, r')
      end
  end.
Proof.
  intros Hget Hj. unfold _execute_job. rewrite Hget.
  destruct (changed_in_place w jid job j mark_running Hget Hj) as (_ & Hj' & _).
  unfold start_job. rewrite Hj'. reflexivity.
Qed.


(** X9. A job that [_execute_job] left failed, because admission or the
    client raised, cannot be reviewed: [review_job] returns it and leaves
    the memory as it is, whatever the decision. *)
Theorem failed_job_is_not_reviewable (describe : RouterError -> string)
    w r jid job j (now later : float) (answer : client_answer)
    decision :
  get jid w = Some job -> deref w job = Some j ->
  (exists err, (parse_with_admit (provider j) (org_id j) now r).2 = inl err)
  \/ (exists message, answer = Raises message) ->
  review_job jid decision
    (_execute_job describe jid now answer later w r).1 =
  ((_execute_job describe jid now answer later w r).1, Some job).
Proof.
  intros Hget Hj Hfail.
  rewrite (execute_job_unfold describe w r jid job j now later answer Hget Hj).
  destruct (changed_in_place w jid job j mark_running Hget Hj)
    as (Hget1 & Hj1 & _).
  fold (start_job job w) in Hget1, Hj1.
  destruct (parse_with_admit (provider j) (org_id j) now r)
    as [r' [err|config]]; simpl in *.
  - destruct (changed_in_place _ jid job _ (mark_failed (describe err))
                Hget1 Hj1) as (Hget2 & Hj2 & _).
    apply (review_skips _ jid job _ decision Hget2 Hj2). reflexivity.
  - destruct Hfail as [[err [=]] | [message ->]].
    destruct (changed_in_place _ jid job _ (mark_failed message)
                Hget1 Hj1) as (Hget2 & Hj2 & _).
    apply (review_skips _ jid job _ decision Hget2 Hj2). reflexivity.
Qed.

(** X10. A job whose client returned events ends as succeeded once it is
    approved, whether or not it needed review, with the events of the
    client attached and [metadata["review"]] set to "approved". *)
Theorem parsed_job_approved_is_succeeded (describe : RouterError -> string)
    w r jid job j (now later : float) (evs : list ParsedEvent)
    (config : ProviderConfig) :
  get jid w = Some job -> deref w job = Some j ->
  (parse_with_admit (provider j) (org_id j) now r).2 = inr config ->
  exists j',
    deref (review_job jid APPROVED
             (_execute_job describe jid now (Returns evs) later w r).1).1 job
    = Some j' /\
    status j' = SUCCEEDED /\ events j' = evs /\
    metadata j' = <["review" := AStr "approved"]> (metadata j).
Proof.
  intros Hget Hj Hadm.
  rewrite (execute_job_unfold describe w r jid job j now later _ Hget Hj).
  destruct (changed_in_place w jid job j mark_running Hget Hj)
    as (Hget1 & Hj1 & _).
  fold (start_job job w) in Hget1, Hj1.
  destruct (parse_with_admit (provider j) (org_id j) now r)
    as [r' [err|config']]; simpl in *; [discriminate|].
  destruct (changed_in_place _ jid job _ (mark_succeeded evs) Hget1 Hj1)
    as (Hget2 & Hj2 & _).
  unfold mark_success. simpl.
  rewrite (review_applies _ jid job _ APPROVED Hget2 Hj2)
    by (simpl; destruct (existsb low_confidence evs); reflexivity).
  destruct (changed_in_place _ jid job _ (apply_review APPROVED) Hget2 Hj2)
    as (_ & Hj3 & _).
  eexists. split; [exact Hj3|]. simpl. repeat split.
Qed.

End Lifecycle.

(** ** More on the router *)

Section RouterMore.

Implicit Types (s : System) (h : list entry) (es : list event) (e : event).
Implicit Types (config : ProviderConfig) (state : ProviderState).
Implicit Types (org url : string) (now : float) (p q : Provider).

(** X11. In every state of a provider reached by registrations and calls
    of [parse_with], in any interleaving, [failure_count] is the length of
    the run of failed client calls that ends the history, modulo a
    [failure_threshold] of 1 or more: it is at least 0 and stays below the
    threshold. *)
Theorem failure_count_below_threshold es p config state :
  config_of (run es).1 p = Some config ->
  state_of (run es).1 p = Some state ->
  1 <= failure_threshold config ->
  failure_count state =
    failure_streak p (run es).2 mod failure_threshold config /\
  0 <= failure_count state < failure_threshold config.
Proof.
  intros Hc Hs Ht.
  destruct (run_state_ok es p config state Hc Hs) as [_ Hh].
  pose proof (ok_streak _ _ _ _ Hh Ht) as E. split; [exact E|].
  rewrite E. apply Z.mod_pos_bound. lia.
Qed.

(** What a step does to the configurations and states of the router. *)
Lemma step_frame s e q :
  target s e <> Some q ->
  config_of (step s e).1 q = config_of s q /\
  state_of (step s e).1 q = state_of s q.
Proof.
  intros Hq. destruct e as [p0 c0 n0 | p0 org url n0 | i evs | i n0 | i];
    simpl in Hq.
  - assert (p0 <> q) as Hne by congruence.
    unfold step, config_of, state_of, register. simpl.
    rewrite !lookup_insert_ne by exact Hne. split; reflexivity.
  - assert (p0 <> q) as Hne by congruence.
    destruct (config_of s p0) as [config0|] eqn:Hc0;
      [destruct (state_of s p0) as [state0|] eqn:Hs0|].
    + rewrite (step_call s p0 org url n0 config0 state0 Hc0 Hs0).
      destruct ((admission p0 config0 org n0 state0).2); simpl;
        rewrite config_of_set_state, state_of_set_state,
          decide_False by exact Hne; split; reflexivity.
    + unfold step, parse_with_admit. unfold config_of in Hc0.
      unfold state_of in Hs0. rewrite Hc0, Hs0. split; reflexivity.
    + rewrite (step_call_unknown s p0 org url n0 Hc0). split; reflexivity.
  - unfold step. destruct (pending s !! i) as [call|]; simpl in *;
      [|split; reflexivity].
    assert (pc_provider call <> q) as Hne by congruence.
    unfold parse_with_else. fold (state_of s (pc_provider call)).
    destruct (state_of s (pc_provider call));
      rewrite ?config_of_set_state, ?state_of_set_state,
        ?decide_False by exact Hne; split; reflexivity.
  - unfold step. destruct (pending s !! i) as [call|]; simpl in *;
      [|split; reflexivity].
    assert (pc_provider call <> q) as Hne by congruence.
    unfold parse_with_except.
    fold (state_of s (pc_provider call)) (config_of s (pc_provider call)).
    destruct (state_of s (pc_provider call)),
             (config_of s (pc_provider call));
      rewrite ?config_of_set_state, ?state_of_set_state,
        ?decide_False by exact Hne; split; reflexivity.
  - unfold step. destruct (pending s !! i); split; reflexivity.
Qed.

(** X12. Providers are kept apart: a registration, a call or the
    completion of a call changes the configuration and the state of no
    provider but the one it is about; quotas, in-flight counts and
    breakers of the other providers are as before. *)
Theorem other_providers_are_untouched s e q :
  target s e <> Some q ->
  config_of (step s e).1 q = config_of s q /\
  state_of (step s e).1 q = state_of s q.
Proof. apply step_frame. Qed.

(** X13. A call is rejected because the circuit is open only while the
    cooldown runs: the provider is enabled, [circuit_open_until] is set
    and the clock reads less. Once the clock has reached
    [circuit_open_until], or if the breaker never tripped, the circuit
    gate lets every call through. *)
Theorem circuit_open_only_during_cooldown s p p' config state org url now :
  config_of s p = Some config ->
  state_of s p = Some state ->
  (step s (Call p org url now)).2 = Rejected (ProviderCircuitOpenError p') ->
  p' = p /\ enabled config = true /\
  exists t, circuit_open_until state = Some t /\ (now <? t)%float = true.
Proof.
  intros Hc Hs. rewrite (step_call s p org url now config state Hc Hs).
  pose proof (admission_cases p config org now state) as Hcases.
  simpl in Hcases.
  destruct (admission p config org now state) as [st' [err|]];
    simpl in *; [|discriminate].
  intros [= ->].
  assert (p' = p /\ enabled config = true /\ circuit_open state now = true)
    as (-> & He & Hopen).
  { destruct Hcases as [(_ & _ & Hwhy) | (_ & _ & Hwhy)].
    - destruct Hwhy as [[? _] | [(? & ? & ?) | [? _]]];
        try discriminate. split; [congruence | split; assumption].
    - destruct Hwhy as [[? _] | [[? _] | [? _]]]; discriminate. }
  split; [reflexivity|]. split; [exact He|].
  unfold circuit_open in Hopen.
  destruct (circuit_open_until state) as [t|]; [|discriminate].
  exists t. split; [reflexivity|].
  apply andb_true_iff in Hopen as [_ Hlt]. exact Hlt.
Qed.

(** X14. An expired window never holds a request back: a call that the
    first three gates let through when the window has expired starts a new
    window at its clock reading and is admitted as its first request,
    provided the quotas that apply are 1 or more and [inflight] is below
    the limit. *)
Theorem expired_window_admits s p config state org url now :
  config_of s p = Some config ->
  state_of s p = Some state ->
  reaches_window config state org now = true ->
  window_expired config state now = true ->
  (forall quota, quota_per_window config = Some quota -> 1 <= quota) ->
  (forall quotas quota,
      org_quotas config = Some quotas -> quotas !! org = Some quota ->
      1 <= quota) ->
  (forall limit, concurrency_limit config = Some limit ->
                 inflight state < limit) ->
  step s (Call p org url now) =
  (mkSystem
     (set_state p
        (mkProviderState now 1 {[org := 1]} (inflight state + 1)
           (failure_count state) (circuit_open_until state))
        (router s))
     (pending s ++ [mkPendingCall p (client config) org url]),
   Invoked (client config) url).
Proof.
  intros Hc Hs Hreach Hexp Hq Hoq Hl.
  rewrite (step_call s p org url now config state Hc Hs).
  apply reaches_window_true in Hreach as (He & Hco & Hrd).
  unfold admission, roll_window. rewrite He, Hco, Hrd, Hexp. simpl.
  assert (global_quota_exceeded config (reset_window now state) = false) as ->.
  { unfold global_quota_exceeded.
    destruct (quota_per_window config) as [quota|] eqn:E; [|reflexivity].
    specialize (Hq quota eq_refl). simpl. apply geb_false. lia. }
  assert (org_quota_exceeded config (reset_window now state) org = false)
    as ->.
  { unfold org_quota_exceeded.
    destruct (org_quotas config) as [quotas|] eqn:E; [|reflexivity].
    destruct (bool_decide (quotas = ∅)); [reflexivity|].
    destruct (quotas !! org) as [quota|] eqn:Eo; [|reflexivity].
    specialize (Hoq quotas quota eq_refl Eo). rewrite org_count_reset.
    apply geb_false. lia. }
  assert (concurrency_exceeded config (reset_window now state) = false) as ->.
  { unfold concurrency_exceeded.
    destruct (concurrency_limit config) as [limit|] eqn:E; [|reflexivity].
    specialize (Hl limit eq_refl). simpl. apply geb_false. lia. }
  simpl. unfold count_admission. rewrite org_count_reset. simpl.
  rewrite insert_empty. reflexivity.
Qed.

(** X15. A call of [parse_with] that is rejected, or whose client returns
    or raises, leaves [inflight] as it found it. A call whose [await] of
    the client is aborted, by an exception that [except Exception] does not
    catch, leaves [inflight] one above what it found, with [failure_count]
    and the breaker as they were: nothing gives the slot back. Whenever the
    client was called the result is what the client did and the request
    has used one unit of the window and of the organization's count, also
    if the client raised or was aborted; a returning client leaves
    [failure_count] at 0. *)
Theorem completed_call_net_effect (r : ProviderRouter) p org url now
    (answer : client_answer) (later : float) config state :
  _configs r !! p = Some config ->
  _state r !! p = Some state ->
  0 <= inflight state ->
  exists state',
    _state (parse_with p org url now answer later r).1 !! p = Some state' /\
    inflight state' =
      match (parse_with p org url now answer later r).2 with
      | inr Aborts => inflight state + 1
      | _ => inflight state
      end /\
    forall result,
      (parse_with p org url now answer later r).2 = inr result ->
      result = answer /\
      window_count state' = window_count (roll_window config now state) + 1 /\
      org_count state' org = org_count (roll_window config now state) org + 1 /\
      (forall evs, answer = Returns evs -> failure_count state' = 0) /\
      (answer = Aborts ->
       failure_count state' = failure_count state /\
       circuit_open_until state' = circuit_open_until state).
Proof.
  intros Hc Hs Hi. unfold parse_with, parse_with_admit. rewrite Hc, Hs.
  pose proof (admission_cases p config org now state) as Hcases.
  simpl in Hcases.
  destruct (admission p config org now state) as [st' [err|]]; simpl in *.
  - exists st'. rewrite lookup_insert_eq. split; [reflexivity|].
    split; [|discriminate].
    destruct Hcases as [(_ & -> & _) | (_ & -> & _)];
      [reflexivity | apply roll_inflight].
  - destruct Hcases as (_ & _ & _ & _ & ->).
    pose proof (roll_inflight config now state) as Hri.
    pose proof (roll_failure_count config now state) as Hrf.
    pose proof (roll_circuit config now state) as Hrc.
    set (rolled := roll_window config now state) in *. clearbody rolled.
    destruct answer as [evs|message|].
    + unfold parse_with_else, set_state. simpl. rewrite lookup_insert_eq.
      simpl. rewrite lookup_insert_eq. eexists. split; [reflexivity|].
      unfold record_success, count_admission, release, org_count. simpl.
      rewrite lookup_insert_eq. simpl.
      split; [lia|]. intros result [= <-]. repeat split; discriminate.
    + unfold parse_with_except, set_state. simpl.
      rewrite lookup_insert_eq, Hc. simpl. rewrite lookup_insert_eq.
      eexists. split; [reflexivity|].
      unfold record_failure, count_admission, release, org_count. simpl.
      destruct (_ >=? _); simpl; rewrite lookup_insert_eq; simpl;
        (split; [lia|]); intros result [= <-]; repeat split; discriminate.
    + unfold set_state. simpl. rewrite lookup_insert_eq.
      eexists. split; [reflexivity|].
      unfold count_admission, org_count. simpl. rewrite lookup_insert_eq.
      simpl. split; [lia|]. intros result [= <-].
      repeat split; auto; discriminate.
Qed.

(** A step changes the configurations only when it registers. *)
Lemma configs_step s e :
  _configs (router (step s e).1) =
  match e with
  | Register p config _ => <[p := config]> (_configs (router s))
  | _ => _configs (router s)
  end.
Proof.
  destruct e as [p0 c0 n0 | p0 org url n0 | i evs | i n0 | i]; simpl.
  5:{ destruct (pending s !! i); reflexivity. }
  - reflexivity.
  - unfold parse_with_admit.
    destruct (_configs (router s) !! p0) as [config0|]; [|reflexivity].
    destruct (_state (router s) !! p0) as [state0|]; [|reflexivity].
    destruct (admission p0 config0 org n0 state0) as [st' [err|]];
      reflexivity.
  - destruct (pending s !! i) as [call|]; [|reflexivity].
    unfold parse_with_else. simpl.
    destruct (_state (router s) !! pc_provider call); reflexivity.
  - destruct (pending s !! i) as [call|]; [|reflexivity].
    unfold parse_with_except. simpl.
    destruct (_state (router s) !! pc_provider call),
             (_configs (router s) !! pc_provider call); reflexivity.
Qed.

Lemma available_iff_registered es p :
  p ∈ available_providers (router (run es).1) <->
  exists config now, Register p config now ∈ es.
Proof.
  unfold available_providers.
  induction es as [|e es IH] using rev_ind.
  - simpl. rewrite dom_empty_L. split.
    + intros H. apply not_elem_of_empty in H. contradiction.
    + intros (c & n & H). apply elem_of_nil in H. contradiction.
  - rewrite run_snoc_system, configs_step. split.
    + intros H.
      assert (p ∈ dom (_configs (router (run es).1)) \/
              exists config now, e = Register p config now) as [H'|H'].
      { destruct e; auto. rewrite dom_insert_L in H.
        apply elem_of_union in H as [H|H]; [|auto].
        apply elem_of_singleton in H. subst. right. eauto. }
      * apply IH in H' as (c & n & H'). exists c, n.
        apply elem_of_app. left. exact H'.
      * destruct H' as (c & n & ->). exists c, n.
        apply elem_of_app. right. left.
    + intros (c & n & H). apply elem_of_app in H as [H|H].
      * assert (p ∈ dom (_configs (router (run es).1))) as H'
            by (apply IH; eauto).
        destruct e; auto. rewrite dom_insert_L. apply elem_of_union. auto.
      * apply list_elem_of_singleton in H. subst e.
        rewrite dom_insert_L. apply elem_of_union. left.
        apply elem_of_singleton. reflexivity.
Qed.

(** X16. The providers [available_providers] lists are those registered
    at some point of the run, since none is ever removed; and a call of
    [parse_with] raises [ValueError], or any other error of a missing
    key, exactly for the providers outside that list, never for one in
    it. *)
Theorem available_providers_are_the_registered es p :
  (p ∈ available_providers (router (run es).1) <->
   exists config now, Register p config now ∈ es) /\
  (forall org url now,
      p ∉ available_providers (router (run es).1) <->
      (step (run es).1 (Call p org url now)).2 = Rejected (ValueError p)) /\
  (forall org url now p',
      (step (run es).1 (Call p org url now)).2 <> Rejected (KeyError p')).
Proof.
  split; [apply available_iff_registered|].
  assert (p ∈ available_providers (router (run es).1) <->
          is_Some (config_of (run es).1 p)) as Hdom
      by (unfold available_providers, config_of; apply elem_of_dom).
  pose proof (run_ok es p) as Hok.
  split.
  - intros org url now. rewrite Hdom.
    destruct (config_of (run es).1 p) as [config|] eqn:Hc.
    + destruct (state_of (run es).1 p) as [state|] eqn:Hs; [|contradiction].
      rewrite (step_call _ p org url now config state Hc Hs).
      pose proof (admission_cases p config org now state) as Hcases.
      simpl in Hcases. split; [intros H; exfalso; apply H; eauto|].
      destruct (admission p config org now state) as [st' [err|]];
        simpl in *; [|discriminate].
      intros [= ->].
      destruct Hcases as [(_ & _ & Hwhy) | (_ & _ & Hwhy)];
        destruct Hwhy as [[? _] | [[? _] | [? _]]]; discriminate.
    + rewrite (step_call_unknown _ p org url now Hc). split; [reflexivity|].
      intros _ [x Hx]. discriminate.
  - intros org url now p'.
    destruct (config_of (run es).1 p) as [config|] eqn:Hc.
    + destruct (state_of (run es).1 p) as [state|] eqn:Hs; [|contradiction].
      rewrite (step_call _ p org url now config state Hc Hs).
      pose proof (admission_cases p config org now state) as Hcases.
      simpl in Hcases.
      destruct (admission p config org now state) as [st' [err|]];
        simpl in *; [|discriminate].
      intros [= ->].
      destruct Hcases as [(_ & _ & Hwhy) | (_ & _ & Hwhy)];
        destruct Hwhy as [[? _] | [[? _] | [? _]]]; discriminate.
    + rewrite (step_call_unknown _ p org url now Hc). discriminate.
Qed.

Lemma calls_to_nonneg p (l : list PendingCall) : 0 <= calls_to p l.
Proof. unfold calls_to. lia. Qed.

Lemma calls_to_app p (l : list PendingCall) (c : PendingCall) :
  calls_to p (l ++ [c]) =
  calls_to p l + (if bool_decide (pc_provider c = p) then 1 else 0).
Proof.
  unfold calls_to. rewrite List.filter_app, length_app. simpl.
  destruct (bool_decide (pc_provider c = p)); simpl; lia.
Qed.

Lemma calls_to_delete p (l : list PendingCall) (i : nat) (c : PendingCall) :
  l !! i = Some c ->
  calls_to p (delete i l) =
  calls_to p l - (if bool_decide (pc_provider c = p) then 1 else 0).
Proof.
  unfold calls_to. revert i. induction l as [|x l IH]; intros i Hi.
  - discriminate.
  - destruct i as [|i]; simpl in *.
    + injection Hi as ->.
      destruct (bool_decide (pc_provider c = p)); simpl; lia.
    + specialize (IH i Hi).
      destruct (bool_decide (pc_provider x = p)); simpl; lia.
Qed.

(** The pending calls after a call: as before, or with the new one. *)
Lemma pending_after_call s p org url now :
  pending (step s (Call p org url now)).1 = pending s \/
  exists c,
    pending (step s (Call p org url now)).1 =
    pending s ++ [mkPendingCall p c org url].
Proof.
  unfold step. destruct (parse_with_admit p org now (router s)) as [r [err|c]];
    simpl; eauto.
Qed.

(** One step keeps [inflight] of [p] within the limit and at or above
    the number of pending calls to [p], when it does not register [p]. *)
Lemma inflight_covers_step p config s e :
  config_of s p = Some config ->
  inflight_covers p s ->
  match e with Register p' _ _ => p' <> p | _ => True end ->
  config_of (step s e).1 p = Some config /\ inflight_covers p (step s e).1.
Proof.
  intros Hc (config' & state & Hc' & Hs & Hcov & Hlim) He.
  assert (config' = config) as -> by congruence. clear Hc'.
  assert (forall s',
             config_of s' p = Some config -> state_of s' p = Some state ->
             calls_to p (pending s') <= calls_to p (pending s) ->
             config_of s' p = Some config /\ inflight_covers p s') as Hsame.
  { intros s' Hc1 Hs1 Hp1. split; [exact Hc1|].
    exists config, state. repeat split; try assumption. lia. }
  destruct e as [p0 c0 n0 | p0 org url n0 | i evs | i n0 | i].
  - destruct (step_frame s (Register p0 c0 n0) p) as [Hc1 Hs1];
      [simpl; congruence|].
    apply Hsame; [congruence | congruence | reflexivity].
  - destruct (decide (p0 = p)) as [->|Hne].
    + rewrite (step_call s p org url n0 config state Hc Hs).
      pose proof (admission_cases p config org n0 state) as Hcases.
      simpl in Hcases.
      destruct (admission p config org n0 state) as [st' [err|]]; simpl in *.
      * split; [exact Hc|].
        assert (inflight st' = inflight state) as Hin
            by (destruct Hcases as [(_ & -> & _) | (_ & -> & _)];
                [reflexivity | apply roll_inflight]).
        exists config, st'. rewrite state_of_set_state,
          decide_True by reflexivity. simpl. rewrite Hin. auto.
      * destruct Hcases as (_ & _ & _ & Hconc & ->).
        split; [exact Hc|].
        eexists config, _. rewrite state_of_set_state,
          decide_True by reflexivity.
        split; [exact Hc|]. split; [reflexivity|]. simpl.
        rewrite calls_to_app. simpl.
        rewrite bool_decide_eq_true_2 by reflexivity.
        rewrite roll_inflight. split; [lia|].
        intros limit Hl. unfold concurrency_exceeded in Hconc.
        rewrite Hl, roll_inflight in Hconc. apply geb_false in Hconc. lia.
    + destruct (step_frame s (Call p0 org url n0) p) as [Hc1 Hs1];
        [simpl; congruence|].
      apply Hsame; [congruence | congruence |].
      destruct (pending_after_call s p0 org url n0) as [->|[c ->]];
        [reflexivity|].
      rewrite calls_to_app. simpl.
      rewrite bool_decide_eq_false_2 by exact Hne. lia.
  - destruct (pending s !! i) as [call|] eqn:Hi.
    2:{ unfold step. rewrite Hi. apply Hsame; auto. reflexivity. }
    destruct (decide (pc_provider call = p)) as [Hp|Hne].
    + unfold step. rewrite Hi. unfold parse_with_else.
      fold (state_of s (pc_provider call)). rewrite Hp, Hs. simpl.
      pose proof (calls_to_delete p _ i call Hi) as Hd.
      rewrite bool_decide_eq_true_2 in Hd by exact Hp.
      pose proof (calls_to_nonneg p (delete i (pending s))) as Hnn.
      split; [exact Hc|].
      eexists config, _. rewrite state_of_set_state,
        decide_True by reflexivity.
      split; [exact Hc|]. split; [reflexivity|].
      simpl. unfold release. split; [lia|].
      intros limit Hl. specialize (Hlim limit Hl). lia.
    + destruct (step_frame s (ClientReturns i evs) p) as [Hc1 Hs1];
        [simpl; rewrite Hi; simpl; congruence|].
      apply Hsame; [congruence | congruence |].
      unfold step. rewrite Hi. simpl.
      rewrite (calls_to_delete p _ i call Hi).
      rewrite bool_decide_eq_false_2 by exact Hne. lia.
  - destruct (pending s !! i) as [call|] eqn:Hi.
    2:{ unfold step. rewrite Hi. apply Hsame; auto. reflexivity. }
    destruct (decide (pc_provider call = p)) as [Hp|Hne].
    + unfold step. rewrite Hi. unfold parse_with_except.
      fold (state_of s (pc_provider call)) (config_of s (pc_provider call)).
      rewrite Hp, Hs, Hc. simpl.
      pose proof (calls_to_delete p _ i call Hi) as Hd.
      rewrite bool_decide_eq_true_2 in Hd by exact Hp.
      pose proof (calls_to_nonneg p (delete i (pending s))) as Hnn.
      split; [exact Hc|].
      eexists config, _. rewrite state_of_set_state,
        decide_True by reflexivity. simpl.
      split; [exact Hc|]. split; [reflexivity|].
      unfold record_failure, release.
      destruct (_ >=? _); simpl; (split; [lia|]);
        intros limit Hl; specialize (Hlim limit Hl); lia.
    + destruct (step_frame s (ClientRaises i n0) p) as [Hc1 Hs1];
        [simpl; rewrite Hi; simpl; congruence|].
      apply Hsame; [congruence | congruence |].
      unfold step. rewrite Hi. simpl.
      rewrite (calls_to_delete p _ i call Hi).
      rewrite bool_decide_eq_false_2 by exact Hne. lia.
  - destruct (pending s !! i) as [call|] eqn:Hi.
    2:{ unfold step. rewrite Hi. apply Hsame; auto. reflexivity. }
    unfold step. rewrite Hi.
    apply Hsame; [exact Hc | exact Hs |]. simpl.
    rewrite (calls_to_delete p _ i call Hi).
    destruct (bool_decide (pc_provider call = p)); lia.
Qed.

(** X17. What the limit is for: from a system in which [inflight] of a
    provider is within the limit and not below the number of its client
    calls in progress, as after its registration, and as long as the
    provider is not registered again, this stays so under every
    interleaving of calls and of clients returning, raising or being
    aborted, and the number of client calls in progress never exceeds
    [concurrency_limit]. *)
Theorem pending_calls_within_limit s h es p config :
  config_of s p = Some config ->
  inflight_covers p s ->
  keeps_registration p es ->
  inflight_covers p (run_from s h es).1 /\
  (forall limit, concurrency_limit config = Some limit ->
                 calls_to p (pending (run_from s h es).1) <= limit).
Proof.
  intros Hc Hcov Hkeep.
  assert (config_of (run_from s h es).1 p = Some config /\
          inflight_covers p (run_from s h es).1) as [Hc' Hcov'].
  { revert s h Hc Hcov.
    induction es as [|e es IH]; intros s h Hc Hcov; simpl.
    - split; assumption.
    - inversion Hkeep; subst.
      destruct (inflight_covers_step p config s e Hc Hcov) as [Hc1 Hcov1];
        [assumption|].
      apply IH; assumption. }
  split; [exact Hcov'|].
  destruct Hcov' as (config' & state & Hc1 & _ & Hle & Hlim).
  assert (config' = config) as -> by congruence.
  intros limit Hl. specialize (Hlim limit Hl). lia.
Qed.

End RouterMore.

(** ** The stub provider *)


(** ** Instances *)

(** The deadline of the breaker is the rounded sum: a failure at 0.1 with
    a cooldown of 0.7 stores 0.7999999999999999, and a call at that
    reading finds the circuit closed. *)
Lemma deadline_is_the_rounded_sum :
  circuit_open_until
    (record_failure
       (mkProviderConfig 2%nat true None 60 None None 1 0.7 None) 0.1
       (new_state 0))
  = Some 0.7999999999999999%float /\
  circuit_open
    (record_failure
       (mkProviderConfig 2%nat true None 60 None None 1 0.7 None) 0.1
       (new_state 0))
    0.7999999999999999 = false.
Proof. split; reflexivity. Qed.

(** The age of the window is the rounded difference: a window started at
    0.30000000000000004 has expired at 60.3 for [window_seconds = 60]. *)
Lemma window_age_is_the_rounded_difference :
  window_expired quota_config (new_state 0.30000000000000004) 60.3 = true.
Proof. reflexivity. Qed.

(** The sample job, parsed and rejected, cannot be approved afterwards. *)
Lemma rejection_is_final_witness :
  review_job "job-1" APPROVED (review_job "job-1" REJECTED parsed_memory).1 =
  ((review_job "job-1" REJECTED parsed_memory).1, Some 0%nat).
Proof.
  apply (rejection_is_final parsed_memory "job-1" 0%nat _ APPROVED
           eq_refl eq_refl).
  left. reflexivity.
Defined.

(** The sample job, parsed and approved twice. *)
Lemma approval_witness :
  review_job "job-1" APPROVED (review_job "job-1" APPROVED parsed_memory).1 =
  ((review_job "job-1" APPROVED parsed_memory).1, Some 0%nat).
Proof.
  apply (approval_is_idempotent_not_final parsed_memory "job-1" 0%nat _
           eq_refl eq_refl).
  left. reflexivity.
Defined.


(** The sample job run against the sample router, the client raising. *)
Lemma failed_job_witness :
  review_job "job-1" APPROVED
    (_execute_job sample_describe "job-1" 1 (Raises "upstream failure") 2
       sample_memory sample_router).1 =
  ((_execute_job sample_describe "job-1" 1 (Raises "upstream failure") 2
      sample_memory sample_router).1, Some 0%nat).
Proof.
  apply (failed_job_is_not_reviewable sample_describe sample_memory
           sample_router "job-1" 0%nat _ 1%float 2%float
           (Raises "upstream failure") APPROVED eq_refl eq_refl).
  right. eexists. reflexivity.
Defined.

(** The sample job parsed with low confidence, then approved. *)
Lemma parsed_job_approved_witness :
  exists j',
    deref (review_job "job-1" APPROVED
             (_execute_job sample_describe "job-1" 1
                (Returns [sample_event (55 # 100)]) 2 sample_memory
                sample_router).1).1 0%nat = Some j' /\
    status j' = SUCCEEDED /\ events j' = [sample_event (55 # 100)].
Proof.
  destruct (parsed_job_approved_is_succeeded sample_describe sample_memory
              sample_router "job-1" 0%nat _ 1%float 2%float
              [sample_event (55 # 100)] quota_config eq_refl eq_refl eq_refl)
    as (j' & Hd & Hs & He & _).
  exists j'. repeat split; assumption.
Defined.

(** After one failure at a threshold of 2 the count is 1. *)
Lemma failure_count_witness :
  0 <= failure_count
         (count_admission "org-1"
            (record_failure breaker_config 2
               (count_admission "org-1" (new_state 0)))) < 2.
Proof.
  apply (failure_count_below_threshold failing_trace OPENROUTER
           breaker_config _ eq_refl eq_refl).
  simpl. lia.
Defined.

(** A call to [OPENAI] leaves [OPENROUTER] as it was. *)
Lemma other_providers_witness :
  state_of (step (run inflight_trace).1
              (Call OPENAI "org-1" "https://a" 2)).1 OPENROUTER =
  state_of (run inflight_trace).1 OPENROUTER.
Proof.
  apply (other_providers_are_untouched (run inflight_trace).1
           (Call OPENAI "org-1" "https://a" 2) OPENROUTER).
  discriminate.
Defined.

(** The call rejected at 4.01 was rejected before 4.05. *)
Lemma circuit_open_witness :
  exists t,
    Some (4 + 0.05)%float = Some t /\ (4.01 <? t)%float = true.
Proof.
  destruct (circuit_open_only_during_cooldown
              (run (failing_trace ++ [ClientRaises 0 4])).1
              OPENROUTER OPENROUTER breaker_config _ "org-1" "https://e"
              4.01%float eq_refl eq_refl eq_refl) as (_ & _ & H).
  exact H.
Defined.

(** A second call to the provider of [quota_trace], 61 seconds after the
    window started, is admitted. *)
Lemma expired_window_witness :
  (step (run quota_trace).1 (Call OPENAI "org-1" "https://b" 61)).2 =
  Invoked 1%nat "https://b".
Proof.
  rewrite (expired_window_admits (run quota_trace).1 OPENAI quota_config _
             "org-1" "https://b" 61%float eq_refl eq_refl eq_refl eq_refl).
  - reflexivity.
  - intros quota [= <-]. lia.
  - intros quotas quota [= <-] H.
    apply lookup_singleton_Some in H as [_ <-]. lia.
  - intros limit [=].
Defined.

(** A call that runs to its end on the sample router, the client raising. *)
Lemma completed_call_witness :
  exists state',
    _state (parse_with OPENAI "org-1" "https://a" 1 (Raises "down") 2
              sample_router).1
      !! OPENAI = Some state' /\
    inflight state' = 0 /\ window_count state' = 1.
Proof.
  destruct (completed_call_net_effect sample_router OPENAI "org-1"
              "https://a" 1%float (Raises "down") 2%float quota_config
              (new_state 0) eq_refl eq_refl) as (state' & Hs & Hi & Hres).
  - simpl. lia.
  - exists state'. split; [exact Hs|]. split; [exact Hi|].
    destruct (Hres (Raises "down") eq_refl) as (_ & Hw & _). exact Hw.
Defined.

(** At a limit of 1, a second call while the first is in progress does
    not reach the client. *)
Lemma pending_calls_witness :
  calls_to OPENROUTER
    (pending (run_from breaker_system []
                [Call OPENROUTER "org-1" "https://a" 1;
                 Call OPENROUTER "org-2" "https://b" 2]).1) <= 1.
Proof.
  apply (pending_calls_within_limit breaker_system [] _ OPENROUTER
           breaker_config eq_refl).
  - exists breaker_config, (new_state 0).
    split; [reflexivity|]. split; [reflexivity|].
    split; [vm_compute; discriminate|].
    intros limit [= <-]. vm_compute. discriminate.
  - repeat constructor.
  - reflexivity.
Defined.
